(** * IRASim, application/languagetable.py: the interactive segment-chaining game

    A shallow embedding of [create_arrow_image], [add_arrows_to_video] and of
    the checkpoint loader and session loop of [main], with the properties the
    specification states about them.

    Python effects (printing, exceptions, files, storage allocation) are
    threaded through a state-and-exception monad over a [world]. NumPy and
    torch arrays are lists. The control values 0.5 and -0.5 are exact in
    binary64 and are written as rationals; the one float the script
    computes, the loader's fraction, is kept as the division that made
    it. *)

From Stdlib Require Import QArith.
From stdpp Require Import base option list strings pretty gmap.

(** ** The Python runtime, as far as the script uses it *)

Module Py.

Inductive exn : Type :=
| ValueError (msg : string)
| IndexError
| ZeroDivisionError
| AttributeError (msg : string)
| FileNotFoundError (path : string)
| NameError (msg : string)
| Raised (what : string).

(** The float [a / b] of two ints. No binary64 arithmetic is done here: a
    float is kept as the division that made it. *)
Record quotient : Type := Quotient { dividend : nat; divisor : nat }.

(** One [print] call. The line of the loader that holds a float,
    [f'Successfully loaded {fraction * 100}% of the original pretrained
    model weights.'], is kept by its [fraction]: the digits Python prints
    for a float are not modelled. *)
Inductive line : Type :=
| Text (s : string)
| LoadedPercent (fraction : quotient).

(** An H x W x 3 uint8 array: rows of pixels, a pixel being its three
    channels. Nothing below does arithmetic on a channel value. *)
Abbreviation pixel := (N * N * N)%type.

Abbreviation image := (list (list pixel)).

(** What an imageio writer was opened with and has been given so far. *)
Record video : Type := Video { fps : nat; frames : list image }.

Record world : Type := World {
  stdout : list line;
  images : gmap string image;
  videos : gmap string video;
  next_storage : nat
}.

Definition M (A : Type) : Type := world → world * (exn + A).

Definition ret {A} (a : A) : M A := λ w, (w, inr a).

Definition bind {A B} (m : M A) (k : A → M B) : M B := λ w,
  match m w with
  | (w', inr a) => k a w'
  | (w', inl e) => (w', inl e)
  end.

Definition raise {A} (e : exn) : M A := λ w, (w, inl e).

Definition lift {A} (r : exn + A) : M A := λ w, (w, r).

Definition print (l : line) : M unit := λ w,
  (World (stdout w ++ [l]) (images w) (videos w) (next_storage w), inr tt).

(** [for x in xs: s = body(s, x)] *)
Fixpoint for_each {A S} (xs : list A) (body : S → A → M S) (s : S) : M S :=
  match xs with
  | [] => ret s
  | x :: xs' => bind (body s x) (for_each xs' body)
  end.

(** [xs[i]] for [i >= 0] *)
Definition getitem {A} (xs : list A) (i : nat) : M A :=
  match xs !! i with
  | Some x => ret x
  | None => raise IndexError
  end.

(** [xs[-1]] *)
Definition getitem_last {A} (xs : list A) : M A :=
  match last xs with
  | Some x => ret x
  | None => raise IndexError
  end.

(** [sep.join(xs)] *)
Fixpoint str_join (sep : string) (xs : list string) : string :=
  match xs with
  | [] => ""
  | [x] => x
  | x :: xs' => x +:+ sep +:+ str_join sep xs'
  end.

(** [os.path.join(a, b)] for a relative [b] and an [a] with no trailing
    slash, which is how the script calls it. *)
Definition path_join (a b : string) : string := a +:+ "/" +:+ b.

(** [imageio.imread(path)] *)
Definition imread (path : string) : M image := λ w,
  match images w !! path with
  | Some img => (w, inr img)
  | None => (w, inl (FileNotFoundError path))
  end.

(** [imageio.imwrite(path, img)] *)
Definition imwrite (path : string) (img : image) : M unit := λ w,
  (World (stdout w) (<[path := img]> (images w)) (videos w) (next_storage w),
   inr tt).

(** [get_writer(path, fps=rate)]. The file is taken to be made anew when
    the writer is opened. imageio's ffmpeg writer makes it when the first
    frame comes, so the two differ for a writer that is given no frame, and
    only there: every statement below about a file is about a writer that
    has been given a frame, or says so. The writer is named by its path. *)
Definition get_writer (path : string) (rate : nat) : M string := λ w,
  (World (stdout w) (images w) (<[path := Video rate []]> (videos w))
     (next_storage w), inr path).

(** [writer.append_data(frame)] *)
Definition append_data (writer : string) (frame : image) : M unit := λ w,
  (World (stdout w) (images w)
     (alter (λ v, Video (fps v) (frames v ++ [frame])) writer (videos w))
     (next_storage w), inr tt).

(** Nothing printed, no files, no storage handed out. *)
Definition empty_world : world := World [] ∅ ∅ 0.

(** [writer.close()] *)
Definition close (writer : string) : M unit := ret tt.

End Py.

Import Py.

Notation "'let*' x ':=' m 'in' k" := (bind m (λ x, k))
  (at level 10, x name, m at level 100, k at level 200, only parsing).
Notation "'let*' ' pat ':=' m 'in' k" :=
  (bind m (λ x, match x with pat => k end))
  (at level 10, pat pattern, m at level 100, k at level 200, only parsing).
Notation "m ';;;' k" := (bind m (λ _, k))
  (at level 100, k at level 200, right associativity, only parsing).

(** ** NumPy array functions used on the arrow image *)

(** [np.zeros((size, size, 3), dtype=np.uint8)], on a 64-bit machine. A
    size that is no C ssize_t, a negative size and a number of bytes that is
    no C ssize_t are refused. Between these and what the machine has memory
    for NumPy raises MemoryError: where that is depends on the machine and
    is not modelled, so what is said of a call below is said of a call that
    returns. *)
Definition np_zeros (size : Z) : M image :=
  if decide (size < - 2 ^ 63 ∨ 2 ^ 63 ≤ size)%Z
  then raise (ValueError "Maximum allowed dimension exceeded")
  else if decide (size < 0)%Z
  then raise (ValueError "negative dimensions are not allowed")
  else if decide (2 ^ 63 ≤ size * size * 3)%Z
  then raise (ValueError
    "array is too big; `arr.size * arr.dtype.itemsize` is larger than the maximum possible size.")
  else ret (replicate (Z.to_nat size) (replicate (Z.to_nat size) (0, 0, 0)%N)).

(** [m.shape[1]] of an array with at least one row *)
Definition width (m : image) : nat := from_option length 0 (head m).

(** [np.flipud(m)]: the rows in reverse order *)
Definition flipud (m : image) : image := reverse m.

(** [np.flip(m, 1)]: every row reversed *)
Definition fliplr (m : image) : image := reverse <$> m.

(** [np.transpose(m, (1, 0, 2))]: row [j] of the result is column [j] *)
Definition transpose (m : image) : image :=
  (λ j, omap (λ row : list pixel, row !! j) m) <$> seq 0 (width m).

(** [np.rot90(m, k)] in the plane of the first two axes, as NumPy defines
    it: [k %= 4], then a flip and a transposition. *)
Definition rot90 (m : image) (k : Z) : image :=
  match (k mod 4)%Z with
  | 0%Z => m
  | 1%Z => transpose (fliplr m)
  | 2%Z => fliplr (flipud m)
  | _ => fliplr (transpose m)
  end.

(** [np.any(px != 0)] *)
Definition np_any_nonzero (px : pixel) : bool :=
  let '(r, g, b) := px in
  negb (r =? 0)%N || negb (g =? 0)%N || negb (b =? 0)%N.

(** [frame[r, c] = px] *)
Definition setitem (frame : image) (r c : nat) (px : pixel) : M image :=
  match frame !! r with
  | Some row =>
      if decide (c < length row)
      then ret (<[r := <[c := px]> row]> frame)
      else raise IndexError
  | None => raise IndexError
  end.

(** [img[i, j]] *)
Definition getitem2 (img : image) (i j : nat) : M pixel :=
  match img !! i ≫= (.!! j) with
  | Some px => ret px
  | None => raise IndexError
  end.

(** ** [create_arrow_image] and [add_arrows_to_video] *)

Definition image_path : string := "./sample/arrow.jpg".

Definition create_arrow_image
    (direction : string) (size : Z) (color : N * N * N) : M image :=
  let* image := np_zeros size in
  print (Text ("Reading arrow image from: " +:+ image_path)) ;;;
  let* image := imread image_path in
  if decide (direction = "s") then ret (flipud image)
  else if decide (direction = "a") then ret (rot90 image 1)
  else if decide (direction = "d") then ret (rot90 image (-1))
  else ret image.

Definition position : nat * nat := (200, 240).

(** The body of the two loops over the arrow's pixels, at [i], [j]. *)
Definition draw_pixel (arrow_img : image) (i : nat) (frame : image) (j : nat)
    : M image :=
  let* px := getitem2 arrow_img i j in
  if np_any_nonzero px
  then setitem frame (position.1 + i) (position.2 + j) px
  else ret frame.

(** The two nested loops over the arrow's pixels, on one [frame]. *)
Definition draw_arrow (arrow_img : image) (frame : image) : M image :=
  for_each (seq 0 (length arrow_img)) (λ frame i,
    for_each (seq 0 (width arrow_img)) (draw_pixel arrow_img i) frame) frame.

(** The body of the loop over [zip(video_np, actions)]: [done] is the
    frames gone through so far, as they are now. *)
Definition overlay_frame (writer : string) (done : list image)
    (frame_action : image * string) : M (list image) :=
  let '(frame, action) := frame_action in
  let* frame :=
    if decide (action ≠ " ")
    then
      let* arrow_img := create_arrow_image action 50 (255, 0, 0)%N in
      draw_arrow arrow_img frame
    else ret frame in
  append_data writer frame ;;;
  ret (done ++ [frame]).

(** The frames of [video_np] are changed in place: the function returns
    nothing, and the value here is [video_np] as the caller finds it
    afterwards. *)
Definition add_arrows_to_video
    (video_np : list image) (save_path : string) (actions : list string)
    : M (list image) :=
  if decide (length actions ≠ length video_np)
  then raise (ValueError
    "The length of the actions list must match the number of video frames.")
  else
    print (Text ("Saving modified video with arrows to: " +:+ save_path)) ;;;
    let* writer := get_writer save_path 4 in
    let* video_np := for_each (zip video_np actions) (overlay_frame writer) [] in
    close writer ;;;
    ret video_np.

(** The arrow for a direction as the specification words it: the loaded
    image flipped vertically for s, turned a quarter counter-clockwise for
    a, a quarter clockwise for d, and as it is otherwise. *)
Definition spec_arrow (direction : string) (base : image) : image :=
  if decide (direction = "s") then flipud base
  else if decide (direction = "a") then rot90 base 1
  else if decide (direction = "d") then rot90 base (-1)
  else base.

(** The pixel of an image at row [r], column [c], if it has one. *)
Definition pixel_at (img : image) (r c : nat) : option pixel :=
  img !! r ≫= (.!! c).

(** [frame'] differs from [frame] only where the arrow, put with its
    corner at [position], has a pixel that is not black, and there it has
    the arrow's pixel. *)
Definition painted (arrow_img frame frame' : image) : Prop :=
  ∀ r c, pixel_at frame' r c ≠ pixel_at frame r c →
    ∃ i j px,
      r = position.1 + i ∧ c = position.2 + j
      ∧ i < length arrow_img ∧ j < width arrow_img
      ∧ pixel_at arrow_img i j = Some px ∧ np_any_nonzero px = true
      ∧ pixel_at frame' r c = Some px.

(** An arrow file and a video to run the overlay on. *)
Definition sample_arrow : image := [[(9, 0, 0); (0, 0, 0)]]%N.

Definition arrow_world : world :=
  World [] {[ image_path := sample_arrow ]} ∅ 0.

Definition sample_video : list image :=
  replicate 2 (replicate 202 (replicate 242 (0, 0, 0)%N)).

(** An array has rows of one length, its width. *)
Definition rectangular (m : image) : Prop :=
  Forall (λ row : list pixel, length row = width m) m.

(** The row lengths of a frame: its shape. *)
Definition shape (frame : image) : list nat := length <$> frame.

(** Every pixel of the arrow that is not black has a place in the frame
    when the arrow's corner is put at [position]. *)
Definition fits (arrow_img frame : image) : Prop :=
  ∀ i j px,
    pixel_at arrow_img i j = Some px → np_any_nonzero px = true →
    is_Some (pixel_at frame (position.1 + i) (position.2 + j)).

(** The arrow pixel that covers row [r], column [c] of a frame, if there
    is one and it is not black. *)
Definition arrow_pixel_on (arrow_img : image) (r c : nat) : option pixel :=
  if decide (position.1 ≤ r ∧ position.2 ≤ c)
  then px ← pixel_at arrow_img (r - position.1) (c - position.2);
       if np_any_nonzero px then Some px else None
  else None.

(** A frame with the arrow on it, in closed form. *)
Definition with_arrow (arrow_img frame : image) : image :=
  imap (λ r row,
    imap (λ c px, default px (arrow_pixel_on arrow_img r c)) row) frame.

(** What the overlay makes of a frame and its action, in closed form,
    from the image the arrow file holds. *)
Definition overlaid (base : image) (frame : image) (action : string)
    : image :=
  if decide (action ≠ " ")
  then with_arrow (spec_arrow action base) frame
  else frame.

(** The lines the constructor prints during an overlay: it is called, and
    reads the file, once for each action that is not blank. *)
Definition reading_lines (actions : list string) : list line :=
  (λ _, Text ("Reading arrow image from: " +:+ image_path))
    <$> filter (λ action, action ≠ " ") actions.

(** An arrow file of two rows and two columns. *)
Definition sample_square : image :=
  [[(1, 0, 0); (2, 0, 0)]; [(3, 0, 0); (4, 0, 0)]]%N.

Definition square_world : world :=
  World [] {[ image_path := sample_square ]} ∅ 0.

(** A frame too small for an arrow at [position]. *)
Definition small_frame : image := replicate 64 (replicate 64 (0, 0, 0)%N).

(** ** Action encoder ([main], the loop over [env_actions]) *)

Definition control_vector : Type := Q * Q.

Definition encode_action (action : string) : control_vector :=
  if decide (action = "d") then (0, 1 # 2)%Q
  else if decide (action = "a") then (0, -1 # 2)%Q
  else if decide (action = "s") then (-1 # 2, 0)%Q
  else if decide (action = "w") then (1 # 2, 0)%Q
  else (0, 0)%Q.

(** [actions = []; for action in env_actions: actions.append(...)] *)
Definition encode_actions (env_actions : list string) : list control_vector :=
  foldl (λ actions action, actions ++ [encode_action action]) [] env_actions.

(** The lookup table in the order the specification writes it. *)
Definition spec_lookup (symbol : string) : control_vector :=
  if decide (symbol = "w") then (1 # 2, 0)%Q
  else if decide (symbol = "s") then (-1 # 2, 0)%Q
  else if decide (symbol = "a") then (0, -1 # 2)%Q
  else if decide (symbol = "d") then (0, 1 # 2)%Q
  else (0, 0)%Q.

Definition defined_vectors : list control_vector :=
  [(1 # 2, 0); (-1 # 2, 0); (0, -1 # 2); (0, 1 # 2); (0, 0)]%Q.

(** ** Checkpoint loader ([main], from [if "ema" in checkpoint] on)

    [torch.load] has returned a dict, given here by its items in insertion
    order (the keys of a dict are distinct). A value of it is a tensor or a
    dict again. [model.load_state_dict] is torch's: it is a parameter. *)

Section Loader.

Context {tensor : Type}.

#[warnings="-register-all"]
Inductive value : Type :=
| Tensor (t : tensor)
| Dict (items : list (string * value)).

Variable load_state_dict :
  gmap string tensor → gmap string value → exn + gmap string tensor.

(** [d[k]], and [k in d] when it is [Some] *)
Fixpoint dict_get (k : string) (items : list (string * value)) : option value :=
  match items with
  | [] => None
  | (k', v) :: rest => if decide (k' = k) then Some v else dict_get k rest
  end.

(** [checkpoint.items()] *)
Definition items_of (checkpoint : value) : M (list (string * value)) :=
  match checkpoint with
  | Dict items => ret items
  | Tensor _ => raise (AttributeError "'Tensor' object has no attribute 'items'")
  end.

(** [a / b] on two lengths *)
Definition true_div (a b : nat) : M quotient :=
  if decide (b = 0) then raise ZeroDivisionError
  else ret (Quotient a b).

(** [pretrained_dict = {}] and the loop that fills it *)
Definition select_pretrained
    (model_dict : gmap string value) (items : list (string * value))
    : M (gmap string value) :=
  for_each items (λ pretrained_dict '(k, v),
    if decide (is_Some (model_dict !! k))
    then ret (<[k := v]> pretrained_dict)
    else print (Text ("Ignoring: " +:+ k)) ;;; ret pretrained_dict) ∅.

(** From [model_dict = model.state_dict()] to the end of the block. The
    model is given by its parameters, and the value is what they are
    afterwards. *)
Definition apply_checkpoint
    (evaluate_checkpoint : string) (checkpoint : value)
    (model : gmap string tensor) : M (gmap string tensor) :=
  let model_dict := Tensor <$> model in
  let* items := items_of checkpoint in
  let* pretrained_dict := select_pretrained model_dict items in
  let* fraction := true_div (size pretrained_dict) (length items) in
  print (LoadedPercent fraction) ;;;
  let model_dict := pretrained_dict ∪ model_dict in
  let* model := lift (load_state_dict model model_dict) in
  print (Text ("Successfully loaded model from: " +:+ evaluate_checkpoint)) ;;;
  ret model.

Definition load_checkpoint
    (evaluate_checkpoint : string) (checkpoint : list (string * value))
    (model : gmap string tensor) : M (gmap string tensor) :=
  let* checkpoint :=
    match dict_get "ema" checkpoint with
    | Some ema => print (Text "Using ema ckpt!") ;;; ret ema
    | None => ret (Dict checkpoint)
    end in
  apply_checkpoint evaluate_checkpoint checkpoint model.

(** What [checkpoint] is bound to after the "ema" test. *)
Definition resolve_ema (checkpoint : list (string * value)) : value :=
  from_option id (Dict checkpoint) (dict_get "ema" checkpoint).

(** The names of a checkpoint, and the names the loop reports as ignored. *)
Definition names (items : list (string * value)) : gset string :=
  list_to_set items.*1.

Definition ignored_lines (model_dict : gmap string value)
    (items : list (string * value)) : list line :=
  (λ k, Text ("Ignoring: " +:+ k))
    <$> filter (λ k, ¬ is_Some (model_dict !! k)) items.*1.

(** A [load_state_dict] to run the loader with: torch's strict key check,
    every value a tensor, shapes left out. *)
Definition as_tensor (v : value) : option tensor :=
  match v with
  | Tensor t => Some t
  | Dict _ => None
  end.

Definition load_state_dict_strict
    (model : gmap string tensor) (state_dict : gmap string value)
    : exn + gmap string tensor :=
  if decide (dom state_dict = dom model)
  then
    if decide (map_Forall (λ _ v, is_Some (as_tensor v)) state_dict)
    then inr (omap as_tensor state_dict)
    else inl (Raised "RuntimeError: a value of the state_dict is no tensor")
  else inl (Raised "RuntimeError: missing or unexpected key(s) in state_dict").

End Loader.

Arguments value : clear implicits.

(** ** The session loop ([main], from [start_idx = 0] on)

    A latent is a tensor: its storage and what the storage holds. The
    generator and the dataset's [resize_preprocess] are collaborators, taken
    as parameters; the generator samples, so it threads a state [G] of its
    own. *)

(** What the loop asks of the contents of a latent: torch's [squeeze], and
    indexing by [-1]. *)
Class TensorOps (L : Type) : Type := {
  (** [t.squeeze()]: [t] without its axes of length one *)
  squeeze : L → L;
  (** [t[-1]]: the last slice of [t] along its first axis; [None], an
      IndexError, when [t] has no axis or the axis is empty *)
  last_slice : L → option L
}.

Section Session.

Context {L raw_frame G : Type} `{!TensorOps L}.

Record latent : Type := Latent { storage : nat; payload : L }.

Variable resize_preprocess : list image → list image.

(** [(x / 2.0 + 0.5).clamp(0, 1) * 255] as uint8, channels last, for one
    frame of [seg_video] *)
Variable to_uint8_hwc : raw_frame → image.

Variable generate_single_video :
  G → latent → list control_vector →
  G * (exn + (list raw_frame * list latent)).

(** The least storage from [n] on that none of [ts] has. *)
Definition storage_bound (ts : list latent) (n : nat) : nat :=
  foldr (λ t n, S (storage t) `max` n) n ts.

(** The tensors a call has returned are there: their storage is not
    handed out again. *)
Definition live (ts : list latent) : M unit := λ w,
  (World (stdout w) (images w) (videos w)
     (storage_bound ts (next_storage w)),
   inr tt).

(** What [seg_latents.squeeze()[-1]] is, where it is something. *)
Definition last_view (seg_latents : list latent) : option latent :=
  match seg_latents with
  | [] => None
  | [t] => Latent (storage t) <$> last_slice (squeeze (payload t))
  | _ => (λ t, Latent (storage t) (squeeze (payload t))) <$> last seg_latents
  end.

(** [seg_latents.squeeze()[-1]], for the trajectory of a batch of one, given
    by its latents. All axes of length one go, the axis of the latents too
    when there is one latent only: then [-1] indexes into that latent. What
    comes out is a view: it has the storage of the latent it is taken
    from. *)
Definition squeeze_last (seg_latents : list latent) : M latent :=
  match seg_latents with
  | [] => raise IndexError
  | [t] =>
      match last_slice (squeeze (payload t)) with
      | Some slice => ret (Latent (storage t) slice)
      | None => raise IndexError
      end
  | _ =>
      let* t := getitem_last seg_latents in
      ret (Latent (storage t) (squeeze (payload t)))
  end.

(** [t.clone()]: new storage, same contents *)
Definition clone (t : latent) : M latent := λ w,
  (World (stdout w) (images w) (videos w) (S (next_storage w)),
   inr (Latent (next_storage w) (payload t))).

Definition game_dir : string := "application/languagetable_game".

Record session : Type := Session {
  start_image : latent;
  seg_video_list : list (list image);
  seg_idx : nat;
  generator : G
}.

(** [all_video], the cumulative buffer a state stands for *)
Definition all_video (s : session) : list image := concat (seg_video_list s).

Definition output_video_path (idx : nat) : string :=
  path_join game_dir ("all_" +:+ pretty idx +:+ "-th.mp4").

Definition startup
    (latent_video : list latent) (video_tensor : list image) (g : G)
    : M session :=
  print (Text ("Creating game directory: " +:+ game_dir)) ;;;
  let start_idx := 0 in
  let* start_image := getitem latent_video start_idx in
  let video_tensor := drop start_idx video_tensor in
  let video_tensor := resize_preprocess video_tensor in
  let first_image_path := path_join game_dir "first_image.png" in
  print (Text ("Saving the first image of the video to: "
               +:+ first_image_path)) ;;;
  let* first_image := getitem video_tensor 0 in
  imwrite first_image_path first_image ;;;
  let seg_video_list := [take 1 video_tensor] in
  let seg_idx := 0 in
  ret (Session start_image seg_video_list seg_idx g).

(** The body of [while True] from its second line on, for the line
    [env_actions] the first has read. The conversions of [seg_video] to
    frames and [np.concatenate] are taken to return: what is said of a round
    below is said of a round that returns, or of what comes before them. *)
Definition round (env_actions : list string) (s : session) : M session :=
  let actions := encode_actions env_actions in
  print (Text ("Processing actions: " +:+ str_join " " env_actions)) ;;;
  let '(g, generated) :=
    generate_single_video (generator s) (start_image s) actions in
  let* '(seg_video, seg_latents) := lift generated in
  live seg_latents ;;;
  let* last_latent := squeeze_last seg_latents in
  let* start_image := clone last_latent in
  let t_videos := to_uint8_hwc <$> seg_video in
  let seg_video_list := seg_video_list s ++ [drop 1 t_videos] in
  let all_video := concat seg_video_list in
  let output_video_path := output_video_path (seg_idx s) in
  print (Text ("Saving generated video to: " +:+ output_video_path)) ;;;
  let* writer := get_writer output_video_path 4 in
  for_each all_video (λ _ frame, append_data writer frame) tt ;;;
  close writer ;;;
  print (Text ("Generated video: " +:+ output_video_path)) ;;;
  ret (Session start_image seg_video_list (S (seg_idx s)) g).

(** The loop, for as many rounds as there are input lines. *)
Definition rounds (inputs : list (list string)) (s : session) : M session :=
  for_each inputs (λ s env_actions, round env_actions s) s.

(** [read_actions_from_keyboard()]. The file binds the name nowhere: it
    defines no such function and imports none. *)
Definition read_actions_from_keyboard : M (list string) :=
  raise (NameError "name 'read_actions_from_keyboard' is not defined").

(** One pass through the body of [while True], as the file has it. *)
Definition iteration (s : session) : M session :=
  let* env_actions := read_actions_from_keyboard in
  round env_actions s.

(** [while True], for at most [n] passes. *)
Fixpoint session_loop (n : nat) (s : session) : M session :=
  match n with
  | 0 => ret s
  | S n' => let* s' := iteration s in session_loop n' s'
  end.

(** The decoded segment of each round of [rounds inputs s], in order. *)
Fixpoint segments (inputs : list (list string)) (s : session) (w : world)
    : list (list image) :=
  match inputs with
  | [] => []
  | env_actions :: inputs' =>
      match generate_single_video (generator s) (start_image s)
              (encode_actions env_actions) with
      | (_, inr (seg_video, _)) =>
          (to_uint8_hwc <$> seg_video) ::
          match round env_actions s w with
          | (w', inr s') => segments inputs' s' w'
          | (_, inl _) => []
          end
      | (_, inl _) => []
      end
  end.

End Session.

Arguments latent : clear implicits.
Arguments session : clear implicits.

(** The frames a list of segments adds to the buffer: each segment's length
    minus one, summed. *)
Definition frames_added (segs : list (list image)) : Z :=
  foldr (λ seg n, (Z.of_nat (length seg) - 1 + n)%Z) 0%Z segs.

(** A latent of the sample runs holds one number: a tensor of no axis. *)
#[global] Instance scalar_tensor : TensorOps nat :=
  {| squeeze := id; last_slice := λ _, None |}.

(** Tensors of numbers by their axes, with torch's [squeeze] and [t[-1]].
    The slices of an axis are of one shape. *)
#[warnings="-register-all"]
Inductive nested : Type :=
| Scalar (x : nat)
| Stack (slices : list nested).

Fixpoint nested_squeeze (t : nested) : nested :=
  match t with
  | Scalar x => Scalar x
  | Stack [t'] => nested_squeeze t'
  | Stack slices => Stack (map nested_squeeze slices)
  end.

#[global] Instance nested_tensor : TensorOps nested :=
  {| squeeze := nested_squeeze;
     last_slice := λ t,
       match t with
       | Scalar _ => None
       | Stack slices => last slices
       end |}.

(** A generator to run the loop with: the seed's frame and one more frame
    per action, each with its latent; the state counts the calls. *)
Definition sample_generator
    (g : nat) (seed : latent nat) (actions : list control_vector)
    : nat * (exn + (list image * list (latent nat))) :=
  (S g,
   inr (replicate (S (length actions)) [[(N.of_nat g, 0, 0)%N]],
        (λ i, Latent (100 * g + i) (payload seed + i))
          <$> seq 0 (S (length actions)))).

(** The same generator on a machine that gives out after one call. *)
Definition failing_generator
    (g : nat) (seed : latent nat) (actions : list control_vector)
    : nat * (exn + (list image * list (latent nat))) :=
  if decide (g < 1) then sample_generator g seed actions
  else (g, inl (Raised "CUDA out of memory")).

(** A generator that returns two latents and no frame, and one that
    returns three frames whatever the actions are. *)
Definition frameless_generator
    (g : nat) (seed : latent nat) (actions : list control_vector)
    : nat * (exn + (list image * list (latent nat))) :=
  (S g, inr ([], [Latent 0 (payload seed); Latent 1 (S (payload seed))])).

Definition fixed_generator
    (g : nat) (seed : latent nat) (actions : list control_vector)
    : nat * (exn + (list image * list (latent nat))) :=
  (S g,
   inr (replicate 3 [[(N.of_nat g, 0, 0)%N]],
        [Latent 0 (payload seed); Latent 1 (S (payload seed))])).

(** A generator of one frame and its latent, of two channels of two
    numbers. *)
Definition single_generator
    (g : nat) (seed : latent nested) (actions : list control_vector)
    : nat * (exn + (list image * list (latent nested))) :=
  (S g,
   inr ([[[(N.of_nat g, 0, 0)%N]]],
        [Latent 0 (Stack [Stack [Scalar 1; Scalar 2];
                          Stack [Scalar 3; Scalar 4]])])).

Definition sample_frame : image := [[(1, 1, 1)%N]].

Definition sample_inputs : list (list string) := [["w"; "d"]; ["s"]].

Definition sample_session : session nat nat :=
  Session (Latent 0 5) [[sample_frame]] 0 0.

(** The world [startup] leaves when it starts from [empty_world] on a video
    whose first frame is [sample_frame]. *)
Definition sample_started : world :=
  World
    [Text ("Creating game directory: " +:+ game_dir);
     Text ("Saving the first image of the video to: "
           +:+ path_join game_dir "first_image.png")]
    {[ path_join game_dir "first_image.png" := sample_frame ]} ∅ 0.

(** * Properties *)

(** ** The monad and its loops *)

Lemma bind_inr {A B} (m : M A) (k : A → M B) w w' a :
  m w = (w', inr a) → bind m k w = k a w'.
Proof. intros H. unfold bind. by rewrite H. Qed.

Lemma bind_inl {A B} (m : M A) (k : A → M B) w w' e :
  m w = (w', inl e) → bind m k w = (w', inl e).
Proof. intros H. unfold bind. by rewrite H. Qed.

Lemma bind_inv {A B} (m : M A) (k : A → M B) w w' b :
  bind m k w = (w', inr b) → ∃ w1 a, m w = (w1, inr a) ∧ k a w1 = (w', inr b).
Proof.
  unfold bind. destruct (m w) as [w1 [e|a]]; [done|]. intros H. by exists w1, a.
Qed.

Lemma bind_assoc_at {A B C} (m : M A) (k : A → M B) (h : B → M C) w :
  bind (bind m k) h w = bind m (λ a, bind (k a) h) w.
Proof. unfold bind. by destruct (m w) as [w1 [e|a]]. Qed.

Lemma for_each_app {A S} (xs ys : list A) (body : S → A → M S) s w :
  for_each (xs ++ ys) body s w
  = bind (for_each xs body s) (for_each ys body) w.
Proof.
  revert s w. induction xs as [|x xs IH]; intros s w; simpl; [done|].
  rewrite (bind_assoc_at (body s x)). unfold bind at 1 2.
  destruct (body s x w) as [w1 [e|s1]]; [done|]. apply IH.
Qed.

(** ** Action encoder *)

Lemma encode_action_spec_lookup action :
  encode_action action = spec_lookup action.
Proof.
  unfold encode_action, spec_lookup.
  repeat case_decide; congruence.
Qed.

Lemma encode_actions_from acc env_actions :
  foldl (λ actions action, actions ++ [encode_action action]) acc env_actions
  = acc ++ (encode_action <$> env_actions).
Proof.
  revert acc. induction env_actions as [|a l IH]; intros acc; simpl.
  - by rewrite app_nil_r.
  - rewrite IH. by rewrite <- app_assoc.
Qed.

Lemma spec_lookup_defined symbol : spec_lookup symbol ∈ defined_vectors.
Proof.
  unfold spec_lookup, defined_vectors.
  repeat case_decide; set_solver.
Qed.

(** C1. Encoding a sequence of symbols gives a sequence of the same length
    (the empty one included) whose elements follow the lookup table of the
    specification, position by position: w to (0.5,0), s to (-0.5,0), a to
    (0,-0.5), d to (0,0.5), anything else to (0,0). [encode_actions] is a
    total function: no symbol makes it fail. *)
Theorem encode_actions_follows_table (env_actions : list string) :
  length (encode_actions env_actions) = length env_actions
  ∧ encode_actions env_actions = spec_lookup <$> env_actions
  ∧ (∀ i symbol, env_actions !! i = Some symbol →
       encode_actions env_actions !! i = Some (spec_lookup symbol))
  ∧ Forall (λ v, v ∈ defined_vectors) (encode_actions env_actions)
  ∧ spec_lookup "w" = (1 # 2, 0)%Q ∧ spec_lookup "s" = (-1 # 2, 0)%Q
  ∧ spec_lookup "a" = (0, -1 # 2)%Q ∧ spec_lookup "d" = (0, 1 # 2)%Q
  ∧ (∀ symbol, symbol ∉ ["w"; "s"; "a"; "d"] → spec_lookup symbol = (0, 0)%Q).
Proof.
  assert (Heq : encode_actions env_actions = spec_lookup <$> env_actions).
  { unfold encode_actions. rewrite encode_actions_from. simpl.
    apply list_fmap_ext. intros _ a _. apply encode_action_spec_lookup. }
  rewrite Heq. split_and!; try done.
  - by rewrite length_fmap.
  - intros i symbol Hi. by rewrite list_lookup_fmap, Hi.
  - apply Forall_fmap, Forall_forall. intros a _. apply spec_lookup_defined.
  - intros symbol Hn. unfold spec_lookup.
    repeat case_decide; subst; try done; exfalso; apply Hn; set_solver.
Qed.

Example encode_scenario_A :
  encode_actions ["w"; "d"; " "] = [(1 # 2, 0); (0, 1 # 2); (0, 0)]%Q.
Proof. reflexivity. Qed.

(** ** Checkpoint loader *)

Lemma NoDup_keys_value {V} (items : list (string * V)) k v v' :
  NoDup items.*1 → (k, v) ∈ items → (k, v') ∈ items → v = v'.
Proof.
  induction items as [|[k0 v0] items IH]; intros Hnd Hv Hv'.
  - by apply elem_of_nil in Hv.
  - rewrite fmap_cons in Hnd. apply NoDup_cons in Hnd as [Hk0 Hnd].
    apply elem_of_cons in Hv as [Hv|Hv], Hv' as [Hv'|Hv'].
    + congruence.
    + exfalso. apply Hk0. injection Hv as -> ->.
      by apply (list_elem_of_fmap_2 fst) in Hv'.
    + exfalso. apply Hk0. injection Hv' as -> ->.
      by apply (list_elem_of_fmap_2 fst) in Hv.
    + by apply IH.
Qed.

Section LoaderFacts.

Context {tensor : Type}.

Variable load_state_dict :
  gmap string tensor → gmap string (value tensor) → exn + gmap string tensor.

Implicit Types (items : list (string * value tensor)).
Implicit Types (model_dict pretrained_dict : gmap string (value tensor)).

Lemma world_eta w :
  World (stdout w) (images w) (videos w) (next_storage w) = w.
Proof. by destruct w. Qed.

Lemma names_cons k v items : names ((k, v) :: items) = {[ k ]} ∪ names items.
Proof. unfold names. by rewrite fmap_cons, list_to_set_cons. Qed.

Lemma ignored_lines_cons model_dict k v items :
  ignored_lines model_dict ((k, v) :: items)
  = (if decide (is_Some (model_dict !! k)) then []
     else [Text ("Ignoring: " +:+ k)]) ++ ignored_lines model_dict items.
Proof.
  unfold ignored_lines. rewrite fmap_cons. simpl. rewrite filter_cons. simpl.
  destruct (decide (is_Some (model_dict !! k))) as [Hk|Hk].
  - by rewrite decide_False by (intros Hn; by apply Hn).
  - by rewrite decide_True.
Qed.

(** The selection loop from any accumulator: it never raises, prints one
    line per name the model lacks, and adds the names the model has. *)
Lemma select_loop model_dict items acc w :
  ∃ pretrained_dict,
    for_each items (λ pretrained_dict '(k, v),
      if decide (is_Some (model_dict !! k))
      then ret (<[k := v]> pretrained_dict)
      else print (Text ("Ignoring: " +:+ k)) ;;; ret pretrained_dict) acc w
    = (World (stdout w ++ ignored_lines model_dict items) (images w)
         (videos w) (next_storage w), inr pretrained_dict)
    ∧ dom pretrained_dict = dom acc ∪ (names items ∩ dom model_dict)
    ∧ (∀ k v, pretrained_dict !! k = Some v →
         acc !! k = Some v ∨ (k, v) ∈ items)
    ∧ size pretrained_dict ≤ size acc + length items.
Proof.
  revert acc w. induction items as [|[k v] items IH]; intros acc w.
  - exists acc. simpl. unfold ret, ignored_lines. simpl.
    rewrite app_nil_r, world_eta. split_and!; [done|set_solver|auto|lia].
  - simpl. rewrite ignored_lines_cons, names_cons.
    destruct (decide (is_Some (model_dict !! k))) as [Hk|Hk].
    + destruct (IH (<[k := v]> acc) w) as (p & Hrun & Hdom & Hval & Hsize).
      exists p. split_and!.
      * unfold bind at 1, ret at 1. exact Hrun.
      * rewrite Hdom, dom_insert_L. apply elem_of_dom in Hk. set_solver.
      * intros k' v' Hp. destruct (Hval _ _ Hp) as [Hacc|Hin].
        -- destruct (decide (k = k')) as [->|Hne].
           ++ rewrite lookup_insert_eq in Hacc. injection Hacc as <-.
              right. apply list_elem_of_here.
           ++ rewrite lookup_insert_ne in Hacc by done. by left.
        -- right. by apply list_elem_of_further.
      * etrans; [exact Hsize|].
        pose proof (map_size_insert k v acc) as Hs.
        destruct (acc !! k); simpl in Hs; unfold id in Hs; simpl; lia.
    + destruct (IH acc (print (Text ("Ignoring: " +:+ k)) w).1)
        as (p & Hrun & Hdom & Hval & Hsize).
      exists p. split_and!.
      * rewrite bind_assoc_at. unfold bind at 1.
        change (print (Text ("Ignoring: " +:+ k)) w)
          with ((print (Text ("Ignoring: " +:+ k)) w).1, inr tt : exn + ()).
        cbv beta iota. unfold bind at 1, ret at 1. rewrite Hrun.
        simpl. by rewrite <- app_assoc.
      * rewrite Hdom. assert (k ∉ dom model_dict) by (by rewrite elem_of_dom).
        set_solver.
      * intros k' v' Hp. destruct (Hval _ _ Hp) as [Hacc|Hin]; [by left|].
        right. by apply list_elem_of_further.
      * simpl. lia.
Qed.

(** What the selection loop returns, read off its result. *)
Lemma select_pretrained_inv model_dict items w w' pretrained_dict :
  select_pretrained model_dict items w = (w', inr pretrained_dict) →
  dom pretrained_dict = names items ∩ dom model_dict
  ∧ size pretrained_dict ≤ length items
  ∧ (∀ k v, pretrained_dict !! k = Some v → (k, v) ∈ items)
  ∧ w' = World (stdout w ++ ignored_lines model_dict items) (images w)
           (videos w) (next_storage w).
Proof.
  intros H.
  destruct (select_loop model_dict items ∅ w)
    as (p & Hrun & Hdom & Hval & Hsize).
  unfold select_pretrained in H. rewrite Hrun in H. injection H as <- <-.
  rewrite dom_empty_L, (left_id_L ∅ (∪)) in Hdom.
  rewrite map_size_empty in Hsize.
  split_and!; try done.
  intros k v Hp. destruct (Hval _ _ Hp) as [Hacc|Hin]; [|done].
  by rewrite lookup_empty in Hacc.
Qed.

Lemma select_pretrained_returns model_dict items w :
  ∃ pretrained_dict,
    select_pretrained model_dict items w
    = (World (stdout w ++ ignored_lines model_dict items) (images w)
         (videos w) (next_storage w), inr pretrained_dict).
Proof.
  destruct (select_loop model_dict items ∅ w) as (p & Hrun & _).
  by exists p.
Qed.

(** The dict the selection loop makes of a checkpoint with distinct keys. *)
Lemma select_pretrained_spec model_dict items w :
  NoDup items.*1 →
  ∃ pretrained_dict,
    select_pretrained model_dict items w
    = (World (stdout w ++ ignored_lines model_dict items) (images w)
         (videos w) (next_storage w), inr pretrained_dict)
    ∧ dom pretrained_dict = names items ∩ dom model_dict
    ∧ size pretrained_dict ≤ length items
    ∧ ∀ k v, pretrained_dict !! k = Some v
             ↔ (k, v) ∈ items ∧ k ∈ dom model_dict.
Proof.
  intros Hnd.
  destruct (select_pretrained_returns model_dict items w) as (p & Hsel).
  exists p. split; [exact Hsel|].
  apply select_pretrained_inv in Hsel as (Hdom & Hsize & Hval & _).
  split_and!; try done. intros k v. split.
  - intros Hp. split; [by apply Hval|].
    assert (Hk : k ∈ dom p) by (by apply elem_of_dom).
    rewrite Hdom in Hk. set_solver.
  - intros [Hin Hk].
    assert (Hkp : k ∈ dom p).
    { rewrite Hdom. apply elem_of_intersection. split; [|done].
      unfold names. apply elem_of_list_to_set.
      by apply (list_elem_of_fmap_2 fst) in Hin. }
    apply elem_of_dom in Hkp as [v' Hv'].
    rewrite Hv'. f_equal. eapply NoDup_keys_value; eauto.
Qed.

(** The loader on a dict, from the dict the selection loop has made: the
    lines it prints and the state dict it hands to [load_state_dict], whose
    outcome is its own. On a dict of no entry it raises in the report
    line. *)
Lemma apply_checkpoint_dict evaluate_checkpoint items
    (model : gmap string tensor) w pretrained_dict w1 :
  select_pretrained (Tensor <$> model) items w = (w1, inr pretrained_dict) →
  apply_checkpoint load_state_dict evaluate_checkpoint (Dict items) model w
  = if decide (items = []) then (w1, inl ZeroDivisionError)
    else
      match load_state_dict model (pretrained_dict ∪ (Tensor <$> model)) with
      | inr model' =>
          (World
             (stdout w1
              ++ [LoadedPercent
                    (Quotient (size pretrained_dict) (length items));
                  Text ("Successfully loaded model from: "
                        +:+ evaluate_checkpoint)])
             (images w1) (videos w1) (next_storage w1), inr model')
      | inl e =>
          (World
             (stdout w1
              ++ [LoadedPercent
                    (Quotient (size pretrained_dict) (length items))])
             (images w1) (videos w1) (next_storage w1), inl e)
      end.
Proof.
  intros Hsel.
  unfold apply_checkpoint. unfold bind at 1. unfold items_of, ret at 1.
  unfold bind at 1. rewrite Hsel.
  unfold bind at 1, true_div.
  destruct (decide (items = [])) as [->|Hne].
  - by rewrite decide_True by done.
  - rewrite decide_False by (by destruct items).
    unfold ret at 1. unfold bind at 1, print at 1.
    unfold bind at 1, lift.
    destruct (load_state_dict model (pretrained_dict ∪ (Tensor <$> model)))
      as [e|model'].
    + done.
    + unfold bind, print, ret. simpl. by rewrite <- !app_assoc.
Qed.

Lemma load_checkpoint_resolved evaluate_checkpoint
    (checkpoint : list (string * value tensor)) model w :
  ∃ w1,
    load_checkpoint load_state_dict evaluate_checkpoint checkpoint model w
    = apply_checkpoint load_state_dict evaluate_checkpoint
        (resolve_ema checkpoint) model w1.
Proof.
  unfold load_checkpoint, resolve_ema.
  destruct (dict_get "ema" checkpoint) as [ema|]; simpl.
  - by exists (print (Text "Using ema ckpt!") w).1.
  - by exists w.
Qed.

(** C2. The loader on a checkpoint dict (its keys are distinct, as a
    dict's are). The names applied to the model are the names of the
    checkpoint that the model has: the state dict the model is loaded from,
    by [load_state_dict], has under each of them the checkpoint's value and
    under every other name the model's own, and what the loader returns or
    raises is what [load_state_dict] does on it. The names reported as
    skipped, one Ignoring line each and no other such line, are the names
    of the checkpoint that the model lacks. On a checkpoint of no entry
    nothing is applied: the loader raises before it loads. *)
Theorem applied_names_are_the_intersection
    evaluate_checkpoint items (model : gmap string tensor) w :
  NoDup items.*1 →
  ∃ applied skipped rest,
    dom applied = names items ∩ dom model
    ∧ (∀ k v, applied !! k = Some v ↔ (k, v) ∈ items ∧ k ∈ dom model)
    ∧ (∀ k, k ∉ names items ∩ dom model →
         (applied ∪ (Tensor <$> model)) !! k = (Tensor <$> model) !! k)
    ∧ (apply_checkpoint load_state_dict evaluate_checkpoint (Dict items)
         model w).2
      = (if decide (items = []) then inl ZeroDivisionError
         else load_state_dict model (applied ∪ (Tensor <$> model)))
    ∧ list_to_set skipped = names items ∖ dom model
    ∧ stdout (apply_checkpoint load_state_dict evaluate_checkpoint
                (Dict items) model w).1
      = stdout w ++ ((λ k, Text ("Ignoring: " +:+ k)) <$> skipped) ++ rest
    ∧ Forall (λ l, ∀ k, l ≠ Text ("Ignoring: " +:+ k)) rest
    ∧ NoDup skipped.
Proof.
  intros Hnd.
  destruct (select_pretrained_spec (Tensor <$> model) items w Hnd)
    as (p & Hsel & Hdom & _ & Hval).
  rewrite dom_fmap_L in Hdom. setoid_rewrite dom_fmap_L in Hval.
  rewrite (apply_checkpoint_dict _ _ _ _ _ _ Hsel).
  exists p, (filter (λ k, ¬ is_Some ((Tensor <$> model) !! k)) items.*1).
  exists
    (if decide (items = []) then []
     else
       match load_state_dict model (p ∪ (Tensor <$> model)) with
       | inr _ =>
           [LoadedPercent (Quotient (size p) (length items));
            Text ("Successfully loaded model from: " +:+ evaluate_checkpoint)]
       | inl _ => [LoadedPercent (Quotient (size p) (length items))]
       end).
  split_and!.
  - exact Hdom.
  - exact Hval.
  - intros k Hk. apply lookup_union_r. apply not_elem_of_dom.
    by rewrite Hdom.
  - destruct (decide (items = [])); [done|].
    by destruct (load_state_dict model (p ∪ (Tensor <$> model))).
  - apply set_eq. intros k. unfold names.
    rewrite elem_of_list_to_set, list_elem_of_filter, elem_of_difference,
      elem_of_list_to_set, <- (dom_fmap_L Tensor model), elem_of_dom. tauto.
  - destruct (decide (items = [])); simpl.
    + by rewrite app_nil_r.
    + destruct (load_state_dict model (p ∪ (Tensor <$> model))); simpl;
        by rewrite <- !app_assoc.
  - destruct (decide (items = [])); [constructor|].
    destruct (load_state_dict model (p ∪ (Tensor <$> model)));
      repeat constructor; intros k; discriminate.
  - by apply NoDup_filter.
Qed.

(** C3 (the code does not do this). An empty checkpoint, bare or under an
    "ema" key, makes the loader raise ZeroDivisionError in the report line,
    before anything is applied: the fraction applied is 0 / 0 there. *)
Theorem empty_checkpoint_raises_ZeroDivisionError
    (evaluate_checkpoint : string) (model : gmap string tensor) w :
  load_checkpoint load_state_dict evaluate_checkpoint [] model w
  = (w, inl ZeroDivisionError)
  ∧ (load_checkpoint load_state_dict evaluate_checkpoint
       [("ema", Dict [])] model w).2 = inl ZeroDivisionError.
Proof. split; reflexivity. Qed.

(** C4, as amended. A checkpoint with an entry [E] under "ema" is loaded by
    announcing the ema variant and running the rest of the loader on [E],
    unwrapped once; so it is loaded as [E] itself is, whenever [E] is a dict
    with no "ema" key of its own. *)
Theorem ema_entry_is_loaded_in_place_of_checkpoint
    (evaluate_checkpoint : string) (checkpoint : list (string * value tensor))
    (ema : value tensor) (model : gmap string tensor) w :
  dict_get "ema" checkpoint = Some ema →
  load_checkpoint load_state_dict evaluate_checkpoint checkpoint model w
  = apply_checkpoint load_state_dict evaluate_checkpoint ema model
      (print (Text "Using ema ckpt!") w).1
  ∧ (∀ items, ema = Dict items → dict_get "ema" items = None →
       load_checkpoint load_state_dict evaluate_checkpoint checkpoint model w
       = load_checkpoint load_state_dict evaluate_checkpoint items model
           (print (Text "Using ema ckpt!") w).1).
Proof.
  intros Hema. unfold load_checkpoint. rewrite Hema. split.
  - reflexivity.
  - intros items -> Hnone. rewrite Hnone. reflexivity.
Qed.

End LoaderFacts.

Lemma applied_names_are_the_intersection_witness :
  ∃ applied : gmap string (value nat),
    dom applied
    = names [("a", Tensor 1); ("b", Tensor 2); ("c", Tensor 3)]
      ∩ dom ({[ "a" := 10; "c" := 30; "d" := 40 ]} : gmap string nat)
    ∧ applied !! "a" = Some (Tensor 1)
    ∧ (apply_checkpoint load_state_dict_strict "ckpt.pt"
         (Dict [("a", Tensor 1); ("b", Tensor 2); ("c", Tensor 3)])
         {[ "a" := 10; "c" := 30; "d" := 40 ]} empty_world).2
      = load_state_dict_strict {[ "a" := 10; "c" := 30; "d" := 40 ]}
          (applied ∪ (Tensor <$> {[ "a" := 10; "c" := 30; "d" := 40 ]})).
Proof.
  assert (Hnd : NoDup ([("a", Tensor 1); ("b", Tensor 2); ("c", Tensor 3)]
                         : list (string * value nat)).*1)
    by (simpl; repeat (constructor; [set_solver|]); constructor).
  destruct (applied_names_are_the_intersection load_state_dict_strict
              "ckpt.pt" [("a", Tensor 1); ("b", Tensor 2); ("c", Tensor 3)]
              {[ "a" := 10; "c" := 30; "d" := 40 ]} empty_world Hnd)
    as (applied & skipped & rest & Hdom & Hval & _ & Hload & _).
  exists applied. split_and!; [exact Hdom| |exact Hload].
  apply Hval. split; [set_solver|]. set_solver.
Defined.

Lemma ema_entry_is_loaded_in_place_of_checkpoint_witness :
  dict_get "ema" [("ema", Dict [("a", Tensor 7); ("b", Tensor 8)])]
  = Some (Dict [("a", Tensor 7); ("b", Tensor 8)])
  ∧ load_checkpoint load_state_dict_strict "ckpt.pt"
      [("ema", Dict [("a", Tensor 7); ("b", Tensor 8)])] {[ "a" := 0 ]}
      empty_world
    = load_checkpoint load_state_dict_strict "ckpt.pt"
        [("a", Tensor 7); ("b", Tensor 8)] {[ "a" := 0 ]}
        (print (Text "Using ema ckpt!") empty_world).1.
Proof.
  split; [reflexivity|].
  apply (proj2 (ema_entry_is_loaded_in_place_of_checkpoint
           load_state_dict_strict "ckpt.pt"
           [("ema", Dict [("a", Tensor 7); ("b", Tensor 8)])]
           (Dict [("a", Tensor 7); ("b", Tensor 8)])
           {[ "a" := 0 ]} empty_world eq_refl)); reflexivity.
Defined.

(** C4 fails as stated when the ema entry has an "ema" key itself: the
    outer checkpoint is loaded from the entry, while the entry, loaded alone,
    is unwrapped once more and here is no dict any longer. *)
Lemma ema_entry_with_ema_key_differs :
  dict_get "ema" [("ema", Dict [("ema", Tensor 7)])]
  = Some (Dict [("ema", Tensor 7)])
  ∧ (load_checkpoint load_state_dict_strict "ckpt.pt"
       [("ema", Dict [("ema", Tensor 7)])] {[ "ema" := 0 ]} empty_world).2
    = inr {[ "ema" := 7 ]}
  ∧ (load_checkpoint load_state_dict_strict "ckpt.pt"
       [("ema", Tensor 7)] {[ "ema" := 0 ]} empty_world).2
    = inl (AttributeError "'Tensor' object has no attribute 'items'").
Proof. split_and!; vm_compute; reflexivity. Qed.

(** ** The session loop *)

Lemma string_app_length (s t : string) :
  String.length (s +:+ t) = String.length s + String.length t.
Proof. induction s as [|a s IH]; simpl; [done|]. by rewrite IH. Qed.

Lemma string_app_inj_r (s1 s2 t : string) : s1 +:+ t = s2 +:+ t → s1 = s2.
Proof.
  revert s2. induction s1 as [|a s1 IH]; intros [|b s2] H.
  - done.
  - apply (f_equal String.length) in H.
    rewrite !string_app_length in H. simpl in H. lia.
  - apply (f_equal String.length) in H.
    rewrite !string_app_length in H. simpl in H. lia.
  - change (String a (s1 +:+ t) = String b (s2 +:+ t)) in H.
    injection H as -> H. f_equal. by apply IH.
Qed.

Lemma output_video_path_inj i j :
  output_video_path i = output_video_path j → i = j.
Proof.
  unfold output_video_path, path_join. intros H.
  do 3 apply (inj (String.app _)) in H.
  apply string_app_inj_r in H. by apply (inj pretty) in H.
Qed.

(** Opening a writer and appending frames leaves the file holding exactly
    those frames, in order. *)
Lemma write_frames path rate acc fs out imgs vs n :
  for_each fs (λ _ frame, append_data path frame) tt
    (World out imgs (<[path := Video rate acc]> vs) n)
  = (World out imgs (<[path := Video rate (acc ++ fs)]> vs) n, inr tt).
Proof.
  revert acc. induction fs as [|f fs IH]; intros acc; simpl.
  - by rewrite app_nil_r.
  - unfold bind, append_data at 1. simpl. rewrite alter_insert_eq. simpl.
    rewrite IH. by rewrite <- app_assoc.
Qed.

Lemma frames_added_length (segs : list (list image)) :
  Forall (λ seg, seg ≠ []) segs →
  Z.of_nat (length (concat (drop 1 <$> segs))) = frames_added segs.
Proof.
  induction 1 as [|seg segs Hseg _ IH]; [done|].
  rewrite fmap_cons.
  change (concat (drop 1 seg :: (drop 1 <$> segs)))
    with (drop 1 seg ++ concat (drop 1 <$> segs)).
  change (frames_added (seg :: segs))
    with (Z.of_nat (length seg) - 1 + frames_added segs)%Z.
  rewrite length_app, length_drop, Nat2Z.inj_add, IH.
  destruct seg; [done|]. simpl. lia.
Qed.

Section SessionFacts.

Context {L raw_frame G : Type} `{!TensorOps L}.

Variable resize_preprocess : list image → list image.

Variable to_uint8_hwc : raw_frame → image.

Variable generate_single_video :
  G → latent L → list control_vector →
  G * (exn + (list raw_frame * list (latent L))).

Local Abbreviation Round := (round to_uint8_hwc generate_single_video).
Local Abbreviation Rounds := (rounds to_uint8_hwc generate_single_video).
Local Abbreviation Segments :=
  (segments to_uint8_hwc generate_single_video).

Implicit Types (s : session L G) (w : world).

Lemma storage_bound_ge (ts : list (latent L)) n : n ≤ storage_bound ts n.
Proof. induction ts as [|t ts IH]; simpl; lia. Qed.

Lemma storage_bound_lt (ts : list (latent L)) n t :
  t ∈ ts → storage t < storage_bound ts n.
Proof.
  induction ts as [|t' ts IH]; intros Hin.
  - by apply elem_of_nil in Hin.
  - apply elem_of_cons in Hin as [->|Hin]; simpl; [lia|].
    apply IH in Hin. lia.
Qed.

Lemma squeeze_last_spec (seg_latents : list (latent L)) w :
  squeeze_last seg_latents w
  = (w, match last_view seg_latents with
        | Some view => inr view
        | None => inl IndexError
        end).
Proof.
  destruct seg_latents as [|t [|t' ts]]; [done| |].
  - simpl. by destruct (last_slice (squeeze (payload t))).
  - unfold squeeze_last, last_view, bind, getitem_last.
    by destruct (last (t :: t' :: ts)).
Qed.

(** What [squeeze()[-1]] gives: of two latents or more, the last one,
    squeezed; of one latent, the last slice of it, squeezed; always a view
    of the last latent. *)
Lemma last_view_Some (seg_latents : list (latent L)) view :
  last_view seg_latents = Some view →
  ∃ t,
    last seg_latents = Some t
    ∧ storage view = storage t
    ∧ (2 ≤ length seg_latents → payload view = squeeze (payload t))
    ∧ (length seg_latents = 1 →
       last_slice (squeeze (payload t)) = Some (payload view)).
Proof.
  destruct seg_latents as [|t [|t' ts]]; [done| |].
  - simpl. destruct (last_slice (squeeze (payload t))) as [slice|] eqn:Hs;
      [|done].
    intros [= <-]. exists t. split_and!; (done || (simpl; lia)).
  - unfold last_view.
    destruct (last (t :: t' :: ts)) as [t0|] eqn:Hlast; [|done].
    intros [= <-]. exists t0. split_and!; (done || (simpl; lia)).
Qed.

(** A round, by what the generator returns. *)
Lemma round_unfold env_actions s w :
  Round env_actions s w
  = match generate_single_video (generator s) (start_image s)
            (encode_actions env_actions) with
    | (g, inl e) =>
        (World
           (stdout w
            ++ [Text ("Processing actions: " +:+ str_join " " env_actions)])
           (images w) (videos w) (next_storage w), inl e)
    | (g, inr (seg_video, seg_latents)) =>
        match last_view seg_latents with
        | None =>
            (World
               (stdout w
                ++ [Text ("Processing actions: "
                          +:+ str_join " " env_actions)])
               (images w) (videos w)
               (storage_bound seg_latents (next_storage w)),
             inl IndexError)
        | Some view =>
            (World
               (stdout w ++
                [Text ("Processing actions: " +:+ str_join " " env_actions);
                 Text ("Saving generated video to: "
                       +:+ output_video_path (seg_idx s));
                 Text ("Generated video: "
                       +:+ output_video_path (seg_idx s))])
               (images w)
               (<[output_video_path (seg_idx s) :=
                    Video 4
                      (concat (seg_video_list s
                               ++ [drop 1 (to_uint8_hwc <$> seg_video)]))]>
                  (videos w))
               (S (storage_bound seg_latents (next_storage w))),
             inr (Session
                    (Latent (storage_bound seg_latents (next_storage w))
                       (payload view))
                    (seg_video_list s
                     ++ [drop 1 (to_uint8_hwc <$> seg_video)])
                    (S (seg_idx s)) g))
        end
    end.
Proof.
  unfold round.
  destruct (generate_single_video (generator s) (start_image s)
              (encode_actions env_actions)) as [g [e|[sv sl]]].
  - done.
  - unfold bind at 1. unfold print at 1. unfold bind at 1, lift at 1.
    unfold bind at 1, live at 1. unfold bind at 1.
    rewrite squeeze_last_spec.
    destruct (last_view sl) as [view|]; [|done].
    unfold bind, print, clone, get_writer, close, ret. simpl.
    rewrite write_frames. simpl. by rewrite <- !app_assoc.
Qed.

(** What a round does when the generator returns a trajectory that
    [squeeze()[-1]] can be taken of. *)
Lemma round_returns env_actions s w g seg_video seg_latents view :
  generate_single_video (generator s) (start_image s)
    (encode_actions env_actions) = (g, inr (seg_video, seg_latents)) →
  last_view seg_latents = Some view →
  Round env_actions s w
  = (World
       (stdout w ++
        [Text ("Processing actions: " +:+ str_join " " env_actions);
         Text ("Saving generated video to: "
               +:+ output_video_path (seg_idx s));
         Text ("Generated video: " +:+ output_video_path (seg_idx s))])
       (images w)
       (<[output_video_path (seg_idx s) :=
            Video 4 (concat (seg_video_list s
                             ++ [drop 1 (to_uint8_hwc <$> seg_video)]))]>
          (videos w))
       (S (storage_bound seg_latents (next_storage w))),
     inr (Session
            (Latent (storage_bound seg_latents (next_storage w))
               (payload view))
            (seg_video_list s ++ [drop 1 (to_uint8_hwc <$> seg_video)])
            (S (seg_idx s)) g)).
Proof. intros Hgen Hview. by rewrite round_unfold, Hgen, Hview. Qed.

(** A round that returns went through a generator call that returned, and
    left the state and the files [round_returns] says. *)
Lemma round_inv env_actions s w w' s' :
  Round env_actions s w = (w', inr s') →
  ∃ g seg_video seg_latents view,
    generate_single_video (generator s) (start_image s)
      (encode_actions env_actions) = (g, inr (seg_video, seg_latents))
    ∧ last_view seg_latents = Some view
    ∧ s' = Session
             (Latent (storage_bound seg_latents (next_storage w))
                (payload view))
             (seg_video_list s ++ [drop 1 (to_uint8_hwc <$> seg_video)])
             (S (seg_idx s)) g
    ∧ videos w'
      = <[output_video_path (seg_idx s) := Video 4 (all_video s')]>
          (videos w)
    ∧ next_storage w' = S (storage_bound seg_latents (next_storage w)).
Proof.
  rewrite round_unfold.
  destruct (generate_single_video (generator s) (start_image s)
              (encode_actions env_actions)) as [g [e|[sv sl]]]; [done|].
  destruct (last_view sl) as [view|] eqn:Hview; [|done].
  intros [= <- <-]. exists g, sv, sl, view. by split_and!.
Qed.

(** A round that raises has written no file: it raises what the generator
    raised, or IndexError where [squeeze()[-1]] is of nothing. *)
Lemma round_raises env_actions s w w' e :
  Round env_actions s w = (w', inl e) →
  videos w' = videos w ∧ images w' = images w
  ∧ ((∃ g, generate_single_video (generator s) (start_image s)
             (encode_actions env_actions) = (g, inl e))
     ∨ e = IndexError).
Proof.
  rewrite round_unfold.
  destruct (generate_single_video (generator s) (start_image s)
              (encode_actions env_actions)) as [g [e'|[sv sl]]].
  - intros [= <- <-]. split_and!; try done. left. by exists g.
  - destruct (last_view sl) as [view|]; [done|].
    intros [= <- <-]. split_and!; try done. by right.
Qed.

Lemma rounds_app xs ys s w :
  Rounds (xs ++ ys) s w = bind (Rounds xs s) (Rounds ys) w.
Proof. apply for_each_app. Qed.

Lemma rounds_cons_inv a inputs s0 w0 w s :
  Rounds (a :: inputs) s0 w0 = (w, inr s) →
  ∃ w1 s1, Round a s0 w0 = (w1, inr s1) ∧ Rounds inputs s1 w1 = (w, inr s).
Proof. intros H. by apply bind_inv in H. Qed.

Lemma rounds_single_inv a s0 w0 w s :
  Rounds [a] s0 w0 = (w, inr s) → Round a s0 w0 = (w, inr s).
Proof.
  intros (w1 & s1 & Hr & Hret)%rounds_cons_inv.
  injection Hret as <- <-. exact Hr.
Qed.

Lemma rounds_take inputs s0 w0 w s n :
  Rounds inputs s0 w0 = (w, inr s) →
  ∃ w_n s_n,
    Rounds (take n inputs) s0 w0 = (w_n, inr s_n)
    ∧ Rounds (drop n inputs) s_n w_n = (w, inr s).
Proof.
  intros H. rewrite <- (take_drop n inputs) in H at 1.
  rewrite rounds_app in H. by apply bind_inv in H.
Qed.

Lemma rounds_seg_idx inputs s0 w0 w s :
  Rounds inputs s0 w0 = (w, inr s) → seg_idx s = seg_idx s0 + length inputs.
Proof.
  revert s0 w0. induction inputs as [|a inputs IH]; intros s0 w0 H.
  - injection H as <- <-. simpl. lia.
  - apply rounds_cons_inv in H as (w1 & s1 & Hr & H).
    apply IH in H. rewrite H.
    apply round_inv in Hr as (g & sv & sl & ll & _ & _ & -> & _).
    simpl. lia.
Qed.

(** Rounds write only to the paths of their own indices. *)
Lemma rounds_videos_other inputs s0 w0 w s p :
  Rounds inputs s0 w0 = (w, inr s) →
  (∀ k, seg_idx s0 ≤ k → p ≠ output_video_path k) →
  videos w !! p = videos w0 !! p.
Proof.
  revert s0 w0. induction inputs as [|a inputs IH]; intros s0 w0 H Hp.
  - by injection H as <- <-.
  - apply rounds_cons_inv in H as (w1 & s1 & Hr & H).
    apply round_inv in Hr as (g & sv & sl & ll & _ & _ & Hs1 & Hv & _).
    rewrite (IH _ _ H).
    + rewrite Hv. apply lookup_insert_ne. intros Heq.
      by apply (Hp (seg_idx s0)).
    + intros k Hk. apply Hp. rewrite Hs1 in Hk. simpl in Hk. lia.
Qed.

Lemma segments_app xs ys s w w' s' :
  Rounds xs s w = (w', inr s') →
  Segments (xs ++ ys) s w = Segments xs s w ++ Segments ys s' w'.
Proof.
  revert s w. induction xs as [|a xs IH]; intros s w H.
  - by injection H as <- <-.
  - apply rounds_cons_inv in H as (w1 & s1 & Hr & H).
    pose proof Hr as (g & sv & sl & ll & Hgen & _)%round_inv.
    simpl. rewrite Hgen, Hr. simpl. f_equal. by apply IH.
Qed.

Lemma segments_all_video inputs s0 w0 w s :
  Rounds inputs s0 w0 = (w, inr s) →
  length (Segments inputs s0 w0) = length inputs
  ∧ all_video s = all_video s0 ++ concat (drop 1 <$> Segments inputs s0 w0).
Proof.
  revert s0 w0. induction inputs as [|a inputs IH]; intros s0 w0 H.
  - injection H as <- <-. simpl. by rewrite app_nil_r.
  - apply rounds_cons_inv in H as (w1 & s1 & Hr & H).
    pose proof Hr as (g & sv & sl & ll & Hgen & _ & Hs1 & _)%round_inv.
    destruct (IH _ _ H) as [Hlen Hall].
    simpl. rewrite Hgen, Hr. simpl. split; [by rewrite Hlen|].
    rewrite Hall, Hs1. unfold all_video. simpl.
    rewrite concat_app. simpl. by rewrite app_nil_r, <- app_assoc.
Qed.

(** What start-up leaves: the first frame of the preprocessed video as the
    buffer, and index 0. *)
Lemma startup_first_frame latent_video video_tensor g w w0 s0 :
  startup resize_preprocess latent_video video_tensor g w = (w0, inr s0) →
  ∃ first_frame,
    resize_preprocess video_tensor !! 0 = Some first_frame
    ∧ all_video s0 = [first_frame] ∧ seg_idx s0 = 0.
Proof.
  unfold startup, bind, print, getitem, imwrite, ret, raise. simpl.
  destruct (latent_video !! 0) as [l0|]; simpl; [|discriminate].
  rewrite !drop_0.
  destruct (resize_preprocess video_tensor) as [|f0 fs] eqn:Hf; simpl;
    [discriminate|].
  intros H. injection H as <- <-. exists f0. by split_and!.
Qed.




End SessionFacts.

(** *** The loop on the sample generators *)






(** ** The arrow image and the overlay *)

(** A loop whose body leaves the world alone and moves its state along a
    preorder does so as a whole. *)
Lemma for_each_pure {A S} (R : S → S → Prop) (xs : list A)
    (body : S → A → M S) :
  Reflexive R → Transitive R →
  (∀ s x w w' s', x ∈ xs → body s x w = (w', inr s') → w' = w ∧ R s s') →
  ∀ s w w' s', for_each xs body s w = (w', inr s') → w' = w ∧ R s s'.
Proof.
  intros Hrefl Htrans. induction xs as [|x xs IH]; intros Hbody s w w' s' H.
  - by injection H as <- <-.
  - simpl in H. apply bind_inv in H as (w1 & s1 & Hx & Hrest).
    apply Hbody in Hx as [-> HR]; [|by left].
    apply IH in Hrest as [-> HR'].
    + split; [done|]. by etrans.
    + intros s2 x2 w2 w2' s2' Hin. apply Hbody. by right.
Qed.

(** A loop raises only what its body raises. *)
Lemma for_each_raises {A S} (Q : exn → Prop) (xs : list A)
    (body : S → A → M S) :
  (∀ s x w w' e, body s x w = (w', inl e) → Q e) →
  ∀ s w w' e, for_each xs body s w = (w', inl e) → Q e.
Proof.
  intros Hbody. induction xs as [|x xs IH]; intros s w w' e H.
  - discriminate.
  - simpl in H. unfold bind in H.
    destruct (body s x w) as [w1 [e1|s1]] eqn:Hx.
    + injection H as <- <-. eauto.
    + eauto.
Qed.

Lemma ok_inv {A} (w w' : world) (a a' : A) :
  (w, inr a : exn + A) = (w', inr a') → w = w' ∧ a = a'.
Proof. by intros [= -> ->]. Qed.

Lemma alter_alter {A} (f g h : A → A) (m : gmap string A) i :
  (∀ x, g (f x) = h x) → alter g i (alter f i m) = alter h i m.
Proof.
  intros Hh. apply map_eq. intros j. destruct (decide (i = j)) as [->|Hne].
  - rewrite !lookup_alter_eq. destruct (m !! j); simpl; [|done].
    by rewrite Hh.
  - by rewrite !lookup_alter_ne.
Qed.

Lemma pixel_at_insert (frame : image) r c px row r' c' :
  frame !! r = Some row → c < length row →
  pixel_at (<[r := <[c := px]> row]> frame) r' c'
  = if decide (r' = r ∧ c' = c) then Some px else pixel_at frame r' c'.
Proof.
  intros Hrow Hc. unfold pixel_at.
  destruct (decide (r' = r)) as [->|Hr].
  - rewrite list_lookup_insert_eq by (by eapply lookup_lt_Some). simpl.
    destruct (decide (c' = c)) as [->|Hcc].
    + rewrite list_lookup_insert_eq by done. by rewrite decide_True.
    + rewrite list_lookup_insert_ne by done.
      rewrite decide_False by (by intros [_ ?]). by rewrite Hrow.
  - rewrite list_lookup_insert_ne by done.
    by rewrite decide_False by (by intros [? _]).
Qed.

Lemma painted_refl arrow_img : Reflexive (painted arrow_img).
Proof. intros frame r c Hne. by destruct Hne. Qed.

Lemma painted_trans arrow_img : Transitive (painted arrow_img).
Proof.
  intros f1 f2 f3 H12 H23 r c Hne.
  destruct (decide (pixel_at f3 r c = pixel_at f2 r c)) as [Heq|Hne'].
  - rewrite Heq in Hne |- *. by apply H12.
  - by apply H23.
Qed.

Lemma draw_pixel_inv arrow_img i j frame w w' frame' :
  i < length arrow_img → j < width arrow_img →
  draw_pixel arrow_img i frame j w = (w', inr frame') →
  w' = w ∧ painted arrow_img frame frame'.
Proof.
  intros Hi Hj. unfold draw_pixel, bind, getitem2.
  destruct (arrow_img !! i ≫= (.!! j)) as [px|] eqn:Hpx; [|discriminate].
  unfold ret at 1. destruct (np_any_nonzero px) eqn:Hnz.
  - unfold setitem.
    destruct (frame !! (position.1 + i)) as [row|] eqn:Hrow; [|discriminate].
    case_decide as Hc; [|discriminate].
    intros [<- <-]%ok_inv. split; [done|].
    intros r c Hne. rewrite (pixel_at_insert _ _ _ _ _ _ _ Hrow Hc) in Hne |- *.
    case_decide as Hrc; [|done]. destruct Hrc as [-> ->].
    by exists i, j, px.
  - intros H. injection H as <- <-. split; [done|]. apply painted_refl.
Qed.

Lemma draw_pixel_raises arrow_img i j frame w w' e :
  draw_pixel arrow_img i frame j w = (w', inl e) → e = IndexError.
Proof.
  unfold draw_pixel, bind, getitem2.
  destruct (arrow_img !! i ≫= (.!! j)) as [px|].
  - unfold ret at 1. destruct (np_any_nonzero px); [|discriminate].
    unfold setitem. destruct (frame !! (position.1 + i)) as [row|].
    + case_decide; [discriminate|]. unfold raise. congruence.
    + unfold raise. congruence.
  - unfold raise. congruence.
Qed.

(** Drawing the arrow prints and writes nothing, and changes the frame
    only where the arrow has a pixel that is not black. *)
Lemma draw_arrow_inv arrow_img frame w w' frame' :
  draw_arrow arrow_img frame w = (w', inr frame') →
  w' = w ∧ painted arrow_img frame frame'.
Proof.
  unfold draw_arrow.
  apply (for_each_pure (painted arrow_img));
    [apply painted_refl|apply painted_trans|].
  intros f i w1 w1' f' Hi%elem_of_seq.
  apply (for_each_pure (painted arrow_img));
    [apply painted_refl|apply painted_trans|].
  intros f2 j w2 w2' f2' Hj%elem_of_seq. apply draw_pixel_inv; lia.
Qed.

Lemma draw_arrow_raises arrow_img frame w w' e :
  draw_arrow arrow_img frame w = (w', inl e) → e = IndexError.
Proof.
  unfold draw_arrow. apply (for_each_raises (λ e, e = IndexError)).
  intros f i w1 w1' e1.
  apply (for_each_raises (λ e, e = IndexError)).
  intros f2 j w2 w2' e2. apply draw_pixel_raises.
Qed.

(** Drawing leaves the world as it is, also where it raises. *)
Lemma draw_arrow_world arrow_img frame w w' r :
  draw_arrow arrow_img frame w = (w', r) → w' = w.
Proof.
  unfold draw_arrow.
  assert (Hinner : ∀ (xs : list nat) (body : image → nat → M image),
    (∀ f x w1 w1' r1, body f x w1 = (w1', r1) → w1' = w1) →
    ∀ f w1 w1' r1, for_each xs body f w1 = (w1', r1) → w1' = w1).
  { intros xs body Hbody. induction xs as [|x xs IH]; intros f w1 w1' r1 H.
    - by injection H as <- <-.
    - simpl in H. unfold bind in H.
      destruct (body f x w1) as [w2 [e|f2]] eqn:Hx.
      + injection H as <- <-. by eapply Hbody.
      + apply Hbody in Hx as ->. by eapply IH. }
  apply Hinner. intros f i w1 w1' r1. apply Hinner.
  intros f2 j w2 w2' r2. unfold draw_pixel, bind, getitem2.
  destruct (arrow_img !! i ≫= (.!! j)) as [px|]; [|by intros [= <- <-]].
  unfold ret at 1. destruct (np_any_nonzero px); [|by intros [= <- <-]].
  unfold setitem. destruct (f2 !! (position.1 + i)) as [row|];
    [|by intros [= <- <-]].
  case_decide; by intros [= <- <-].
Qed.

(** With a size [np.zeros] takes, the constructor prints its line, reads
    the file and returns the image turned for the direction. *)
Lemma create_arrow_image_nonneg direction size color w :
  (0 ≤ size < 2 ^ 63)%Z → (size * size * 3 < 2 ^ 63)%Z →
  create_arrow_image direction size color w
  = match images w !! image_path with
    | Some base =>
        ((print (Text ("Reading arrow image from: " +:+ image_path)) w).1,
         inr (spec_arrow direction base))
    | None =>
        ((print (Text ("Reading arrow image from: " +:+ image_path)) w).1,
         inl (FileNotFoundError image_path))
    end.
Proof.
  intros Hsize Hbytes. unfold create_arrow_image, np_zeros.
  do 3 rewrite decide_False by lia.
  unfold bind, ret, print, imread. simpl.
  destruct (images w !! image_path) as [base|]; [|done].
  unfold spec_arrow. by repeat case_decide.
Qed.

(** A constructor call that returns has printed its line and read the
    file, whatever its size and color are. *)
Lemma create_arrow_image_inv direction size color w w' arrow_img :
  create_arrow_image direction size color w = (w', inr arrow_img) →
  w' = (print (Text ("Reading arrow image from: " +:+ image_path)) w).1
  ∧ ∃ base,
      images w !! image_path = Some base
      ∧ arrow_img = spec_arrow direction base.
Proof.
  unfold create_arrow_image. unfold bind at 1.
  destruct (np_zeros size w) as [w0 [e|canvas]] eqn:Hzeros; [discriminate|].
  assert (w0 = w) as ->.
  { unfold np_zeros, raise, ret in Hzeros.
    repeat case_decide; by injection Hzeros. }
  unfold bind, print, imread. simpl.
  destruct (images w !! image_path) as [base|]; [|discriminate].
  unfold spec_arrow, ret.
  repeat case_decide; intros [= <- <-]; (split; [done|by exists base]).
Qed.

Lemma overlay_frame_inv writer done frame action w w' out :
  overlay_frame writer done (frame, action) w = (w', inr out) →
  ∃ frame',
    out = done ++ [frame']
    ∧ images w' = images w ∧ next_storage w' = next_storage w
    ∧ videos w'
      = alter (λ v, Video (fps v) (frames v ++ [frame'])) writer (videos w)
    ∧ (action = " " → frame' = frame)
    ∧ (action ≠ " " →
         ∃ base, images w !! image_path = Some base
                 ∧ painted (spec_arrow action base) frame frame').
Proof.
  unfold overlay_frame. intros H.
  apply bind_inv in H as (w1 & frame' & Hframe & Hrest).
  exists frame'.
  assert (Hout : out = done ++ [frame']
                 ∧ images w' = images w1 ∧ next_storage w' = next_storage w1
                 ∧ videos w' = alter (λ v, Video (fps v) (frames v ++ [frame']))
                                 writer (videos w1)).
  { revert Hrest. unfold bind, append_data, ret. simpl.
    intros Hrest. by injection Hrest as <- <-. }
  destruct Hout as (-> & Himg & Hnext & Hvid).
  destruct (decide (action ≠ " ")) as [Ha|Ha].
  - apply bind_inv in Hframe as (w2 & arrow_img & Harrow & Hdraw).
    rewrite create_arrow_image_nonneg in Harrow by lia.
    apply draw_arrow_inv in Hdraw as [-> Hpainted].
    destruct (images w !! image_path) as [base|] eqn:Hbase; [|discriminate].
    injection Harrow as <- <-. simpl in *.
    split_and!; try done. intros _. by exists base.
  - injection Hframe as <- <-. by split_and!.
Qed.

Lemma overlay_frame_raises writer done frame action w w' e :
  overlay_frame writer done (frame, action) w = (w', inl e) →
  e = IndexError ∨ e = FileNotFoundError image_path.
Proof.
  unfold overlay_frame. unfold bind at 1.
  destruct (decide (action ≠ " ")) as [Ha|Ha].
  - unfold bind at 1. rewrite create_arrow_image_nonneg by lia.
    destruct (images w !! image_path) as [base|].
    + destruct (draw_arrow _ _ _) as [w1 [e1|f1]] eqn:Hdraw.
      * intros H. injection H as <- <-. left.
        by eapply draw_arrow_raises.
      * unfold bind, append_data, ret. simpl. discriminate.
    + intros H. injection H as <- <-. by right.
  - unfold ret at 1, bind, append_data, ret. simpl. discriminate.
Qed.

(** The loop over the frames: what it returns, appends to the writer's
    file and leaves alone. *)
Lemma overlay_loop writer zs acc w w' out :
  for_each zs (overlay_frame writer) acc w = (w', inr out) →
  ∃ new,
    out = acc ++ new
    ∧ images w' = images w ∧ next_storage w' = next_storage w
    ∧ videos w'
      = alter (λ v, Video (fps v) (frames v ++ new)) writer (videos w)
    ∧ Forall2 (λ (fa : image * string) frame',
        (fa.2 = " " → frame' = fa.1)
        ∧ (fa.2 ≠ " " →
             ∃ base, images w !! image_path = Some base
                     ∧ painted (spec_arrow fa.2 base) fa.1 frame')) zs new.
Proof.
  revert acc w. induction zs as [|[frame action] zs IH]; intros acc w H.
  - injection H as <- <-. exists []. rewrite app_nil_r. split_and!; try done.
    symmetry. apply alter_id. intros [r fs] _. simpl. by rewrite app_nil_r.
  - simpl in H. apply bind_inv in H as (w1 & acc1 & Hframe & Hrest).
    apply overlay_frame_inv in Hframe
      as (frame' & -> & Himg & Hnext & Hvid & Hblank & Harrow).
    apply IH in Hrest as (new & -> & Himg' & Hnext' & Hvid' & Hall).
    exists (frame' :: new). split_and!.
    + by rewrite <- app_assoc.
    + congruence.
    + congruence.
    + rewrite Hvid', Hvid. apply alter_alter. intros v. simpl.
      by rewrite <- app_assoc.
    + constructor; [done|]. by rewrite Himg in Hall.
Qed.

(** C9. When the overlay returns, it has given the writer the frames it
    returns, in order, at 4 fps: they are the file, where there is a frame
    at all. A frame paired with the blank action is as it was, and a frame
    paired with another action differs from what it was only at pixels
    inside the arrow's box at (200, 240) where the arrow's pixel is non-zero
    in some channel (and there it has the arrow's pixel). *)
Theorem overlay_changes_only_arrow_pixels
    video_np save_path actions w w' video' :
  add_arrows_to_video video_np save_path actions w = (w', inr video') →
  length video' = length video_np
  ∧ (video_np ≠ [] → videos w' !! save_path = Some (Video 4 video'))
  ∧ ∀ k frame action frame',
      video_np !! k = Some frame → actions !! k = Some action →
      video' !! k = Some frame' →
      (action = " " → frame' = frame)
      ∧ (action ≠ " " →
           ∃ arrow_img,
             (create_arrow_image action 50 (255, 0, 0)%N w).2 = inr arrow_img
             ∧ ∀ r c, pixel_at frame' r c ≠ pixel_at frame r c →
                 ∃ i j px,
                   r = 200 + i ∧ c = 240 + j
                   ∧ i < length arrow_img ∧ j < width arrow_img
                   ∧ pixel_at arrow_img i j = Some px
                   ∧ np_any_nonzero px = true
                   ∧ pixel_at frame' r c = Some px).
Proof.
  unfold add_arrows_to_video. case_decide as Hlen; [discriminate|].
  intros H.
  apply bind_inv in H as (w1 & [] & Hprint & H).
  apply bind_inv in H as (w2 & writer & Hwriter & H).
  apply bind_inv in H as (w3 & out & Hloop & H).
  injection H as <- <-. injection Hprint as <-. injection Hwriter as <- <-.
  apply overlay_loop in Hloop as (new & -> & Himg & Hnext & Hvid & Hall).
  simpl in *. rewrite alter_insert_eq in Hvid.
  split_and!.
  - apply Forall2_length in Hall. rewrite <- Hall, length_zip_with. lia.
  - intros _. rewrite Hvid. apply lookup_insert_eq.
  - intros k frame action frame' Hk Ha Hk'.
    assert (Hz : zip video_np actions !! k = Some (frame, action)).
    { by rewrite lookup_zip_with, Hk, Ha. }
    destruct (Forall2_lookup_lr _ _ _ _ _ _ Hall Hz Hk') as [Hblank Harrow].
    split; [exact Hblank|]. intros Hne.
    destruct (Harrow Hne) as (base & Hbase & Hpainted).
    exists (spec_arrow action base). split.
    + rewrite create_arrow_image_nonneg by lia. by rewrite Hbase.
    + exact Hpainted.
Qed.

Lemma overlay_changes_only_arrow_pixels_witness :
  ∃ w' video',
    add_arrows_to_video sample_video "out.mp4" ["d"; " "] arrow_world
    = (w', inr video')
    ∧ length video' = 2
    ∧ videos w' !! "out.mp4" = Some (Video 4 video')
    ∧ (∀ frame', video' !! 1 = Some frame' →
         frame' = replicate 202 (replicate 242 (0, 0, 0)%N)).
Proof.
  assert (Hrun : ∃ w' video',
    add_arrows_to_video sample_video "out.mp4" ["d"; " "] arrow_world
    = (w', inr video')) by (eexists _, _; vm_compute; reflexivity).
  destruct Hrun as (w' & video' & Hrun). exists w', video'.
  destruct (overlay_changes_only_arrow_pixels sample_video "out.mp4"
              ["d"; " "] arrow_world w' video' Hrun)
    as (Hlen & Hfile & Hframes).
  split_and!; [exact Hrun|exact Hlen|by apply Hfile|].
  intros frame' Hf.
  by apply (Hframes 1 (replicate 202 (replicate 242 (0, 0, 0)%N)) " "
              frame' eq_refl eq_refl Hf).
Defined.

(** C10, as amended. Where the constructor returns, it has done the same
    whatever the size and the color: it has printed its line, read the file
    and returned the loaded image flipped vertically for s, turned by
    [np.rot90] once for a and once the other way for d, and as it is for
    any other direction. *)
Theorem arrow_depends_on_direction_only
    direction size size' color color' w w1 w2 arrow_img arrow_img' :
  create_arrow_image direction size color w = (w1, inr arrow_img) →
  create_arrow_image direction size' color' w = (w2, inr arrow_img') →
  arrow_img = arrow_img' ∧ w1 = w2
  ∧ ∃ base,
      images w !! image_path = Some base
      ∧ arrow_img = spec_arrow direction base
      ∧ spec_arrow "s" base = flipud base
      ∧ spec_arrow "a" base = rot90 base 1
      ∧ spec_arrow "d" base = rot90 base (-1)
      ∧ spec_arrow "w" base = base
      ∧ (direction ∉ ["s"; "a"; "d"] → spec_arrow direction base = base).
Proof.
  intros (Hw1 & base & Hbase & ->)%create_arrow_image_inv
         (Hw2 & base' & Hbase' & ->)%create_arrow_image_inv.
  rewrite Hbase in Hbase'. injection Hbase' as <-.
  split_and!; [done|congruence|].
  exists base. split_and!; try done.
  intros Hdir. unfold spec_arrow.
  repeat case_decide; subst; try done; exfalso; apply Hdir; set_solver.
Qed.

Lemma arrow_depends_on_direction_only_witness :
  ∃ w1 arrow_img w2 arrow_img',
    create_arrow_image "a" 50 (255, 0, 0)%N arrow_world = (w1, inr arrow_img)
    ∧ create_arrow_image "a" 7 (0, 255, 0)%N arrow_world
      = (w2, inr arrow_img')
    ∧ arrow_img = arrow_img' ∧ w1 = w2
    ∧ arrow_img = rot90 sample_arrow 1.
Proof.
  assert (H50 : ∃ w1 arrow_img,
    create_arrow_image "a" 50 (255, 0, 0)%N arrow_world
    = (w1, inr arrow_img)) by (eexists _, _; vm_compute; reflexivity).
  assert (H7 : ∃ w2 arrow_img',
    create_arrow_image "a" 7 (0, 255, 0)%N arrow_world
    = (w2, inr arrow_img')) by (eexists _, _; vm_compute; reflexivity).
  destruct H50 as (w1 & arrow_img & H50).
  destruct H7 as (w2 & arrow_img' & H7).
  exists w1, arrow_img, w2, arrow_img'.
  destruct (arrow_depends_on_direction_only "a" 50 7 (255, 0, 0)%N
              (0, 255, 0)%N arrow_world w1 w2 arrow_img arrow_img' H50 H7)
    as (Himg & Hw & base & Hbase & Harrow & _ & Ha & _).
  split_and!; [exact H50|exact H7|exact Himg|exact Hw|].
  injection Hbase as <-. by rewrite Harrow.
Defined.

(** C10 fails as stated for a size [np.zeros] refuses, a negative one for
    instance: the blank canvas the body allocates first, and never uses,
    cannot be made, and the call raises instead of returning the image. *)
Lemma arrow_with_negative_size_raises :
  (create_arrow_image "w" (-1) (255, 0, 0)%N arrow_world).2
  = inl (ValueError "negative dimensions are not allowed")
  ∧ (create_arrow_image "w" 50 (255, 0, 0)%N arrow_world).2
    = inr sample_arrow.
Proof. split; vm_compute; reflexivity. Qed.

Arguments overlay_frame : simpl never.

(** The loop over the frames when every action is blank: the frames go to
    the writer as they are. *)
Lemma overlay_loop_blank writer video_np actions acc fs out imgs vs n :
  length actions = length video_np →
  Forall (λ a, a = " ") actions →
  for_each (zip video_np actions) (overlay_frame writer) acc
    (World out imgs (<[writer := Video 4 fs]> vs) n)
  = (World out imgs (<[writer := Video 4 (fs ++ video_np)]> vs) n,
     inr (acc ++ video_np)).
Proof.
  revert actions acc fs.
  induction video_np as [|frame video_np IH];
    intros [|a actions] acc fs Hlen Hall; try discriminate.
  - simpl. by rewrite !app_nil_r.
  - apply Forall_cons in Hall as [-> Hall]. simpl.
    unfold bind at 1, overlay_frame at 1.
    rewrite decide_False by (intros H; by apply H).
    unfold bind, ret, append_data. simpl. rewrite alter_insert_eq. simpl.
    rewrite IH; [|simpl in Hlen; lia|done]. by rewrite <- !app_assoc.
Qed.

(** The loop over the frames only adds to what has been printed. *)
Lemma overlay_frame_stdout writer done fa w w' r :
  overlay_frame writer done fa w = (w', r) →
  ∃ rest, stdout w' = stdout w ++ rest.
Proof.
  destruct fa as [frame action]. unfold overlay_frame. unfold bind at 1.
  destruct (decide (action ≠ " ")) as [Ha|Ha].
  - unfold bind at 1. rewrite create_arrow_image_nonneg by lia.
    destruct (images w !! image_path) as [base|].
    + destruct (draw_arrow _ _ _) as [w1 [e1|f1]] eqn:Hdraw.
      * intros [= <- <-].
        rewrite (draw_arrow_world _ _ _ _ _ Hdraw). by eexists.
      * apply draw_arrow_inv in Hdraw as [-> _].
        unfold bind, append_data, ret. simpl. intros [= <- <-].
        by eexists.
    + intros [= <- <-]. by eexists.
  - unfold ret at 1, bind, append_data, ret. simpl. intros [= <- <-].
    exists []. by rewrite app_nil_r.
Qed.

Lemma overlay_loop_stdout writer zs acc w w' r :
  for_each zs (overlay_frame writer) acc w = (w', r) →
  ∃ rest, stdout w' = stdout w ++ rest.
Proof.
  revert acc w. induction zs as [|fa zs IH]; intros acc w H.
  - injection H as <- <-. exists []. by rewrite app_nil_r.
  - simpl in H. unfold bind in H.
    destruct (overlay_frame writer acc fa w) as [w1 [e|acc1]] eqn:Hstep.
    + injection H as <- <-. by eapply overlay_frame_stdout.
    + apply overlay_frame_stdout in Hstep as [rest1 Hrest1].
      apply IH in H as [rest ->]. rewrite Hrest1.
      exists (rest1 ++ rest). by rewrite <- app_assoc.
Qed.

Lemma add_arrows_raises video_np save_path actions w e :
  length actions = length video_np →
  (add_arrows_to_video video_np save_path actions w).2 = inl e →
  e = IndexError ∨ e = FileNotFoundError image_path.
Proof.
  intros Hlen. unfold add_arrows_to_video. rewrite decide_False by tauto.
  unfold bind at 1. simpl. unfold bind at 1. simpl. unfold bind at 1.
  destruct (for_each _ _ _ _) as [w3 [e3|out]] eqn:Hloop; simpl.
  - intros [= <-]. revert Hloop.
    apply (for_each_raises
             (λ e, e = IndexError ∨ e = FileNotFoundError image_path)).
    intros acc [frame action] w1 w1' e1. apply overlay_frame_raises.
  - discriminate.
Qed.



(** ** More on the checkpoint loader *)

Section LoaderOutcome.

Context {tensor : Type}.

Variable load_state_dict :
  gmap string tensor → gmap string (value tensor) → exn + gmap string tensor.

Implicit Types (items : list (string * value tensor)).
Implicit Types (model_dict pretrained_dict : gmap string (value tensor)).

(** Missing and extra keys never make the loader fail. On a checkpoint
    that is (after the ema test) a dict with at least one entry, the state
    dict handed to [load_state_dict] has exactly the model's own keys,
    whatever names the checkpoint has, and the loader returns or raises
    exactly what [load_state_dict] returns or raises on it. *)
Theorem loader_outcome_is_that_of_load_state_dict
    evaluate_checkpoint (checkpoint : list (string * value tensor))
    items (model : gmap string tensor) w :
  resolve_ema checkpoint = Dict items → items ≠ [] →
  ∃ pretrained_dict,
    dom pretrained_dict = names items ∩ dom model
    ∧ dom (pretrained_dict ∪ (Tensor <$> model)) = dom model
    ∧ (load_checkpoint load_state_dict evaluate_checkpoint checkpoint
         model w).2
      = load_state_dict model (pretrained_dict ∪ (Tensor <$> model)).
Proof.
  intros Hres Hne.
  destruct (load_checkpoint_resolved load_state_dict evaluate_checkpoint
              checkpoint model w) as (w1 & ->).
  rewrite Hres.
  destruct (select_pretrained_returns (Tensor <$> model) items w1)
    as (p & Hsel).
  rewrite (apply_checkpoint_dict _ _ _ _ _ _ _ Hsel).
  rewrite decide_False by done.
  apply select_pretrained_inv in Hsel as (Hdom & _).
  rewrite dom_fmap_L in Hdom.
  exists p. split_and!.
  - done.
  - rewrite dom_union_L, dom_fmap_L, Hdom. set_solver.
  - by destruct (load_state_dict model (p ∪ (Tensor <$> model))).
Qed.

(** The report line. On a dict of at least one entry with distinct keys
    (as every Python dict has), the line the loader prints holds the float
    that Python makes of two numbers: the number of the checkpoint's names
    that the model has, over the number of the checkpoint's names. The
    first is at most the second, which is not zero. *)
Theorem loader_reports_fraction_applied
    evaluate_checkpoint items (model : gmap string tensor) w :
  items ≠ [] → NoDup items.*1 →
  LoadedPercent
    (Quotient (size (names items ∩ dom model)) (size (names items)))
    ∈ stdout (apply_checkpoint load_state_dict evaluate_checkpoint
                (Dict items) model w).1
  ∧ size (names items ∩ dom model) ≤ size (names items)
  ∧ 0 < size (names items).
Proof.
  intros Hne Hnd.
  destruct (select_pretrained_returns (Tensor <$> model) items w)
    as (p & Hsel).
  rewrite (apply_checkpoint_dict _ _ _ _ _ _ _ Hsel).
  rewrite decide_False by done.
  apply select_pretrained_inv in Hsel as (Hdom & Hsize & _).
  rewrite dom_fmap_L in Hdom.
  assert (Hp : size (names items ∩ dom model) = size p).
  { by rewrite <- Hdom, size_dom. }
  assert (Hc : size (names items) = length items).
  { unfold names. rewrite size_list_to_set by done. by rewrite length_fmap. }
  rewrite Hp, Hc. split_and!.
  - destruct (load_state_dict model (p ∪ (Tensor <$> model))); simpl;
      set_solver.
  - done.
  - destruct items; [done|]. simpl. lia.
Qed.

(** The state dict the model is loaded from. On a checkpoint that is (after
    the ema test) a dict of at least one entry with distinct keys, what the
    loader returns or raises is what [load_state_dict] does on a state dict
    with the model's names, in which a name the checkpoint and the model
    share has the checkpoint's value and any other name of the model has
    the model's own. *)
Theorem state_dict_takes_the_checkpoint_values
    evaluate_checkpoint (checkpoint : list (string * value tensor))
    items (model : gmap string tensor) w :
  resolve_ema checkpoint = Dict items → items ≠ [] → NoDup items.*1 →
  ∃ state_dict,
    (load_checkpoint load_state_dict evaluate_checkpoint checkpoint
       model w).2
    = load_state_dict model state_dict
    ∧ dom state_dict = dom model
    ∧ (∀ k v, (k, v) ∈ items → k ∈ dom model → state_dict !! k = Some v)
    ∧ (∀ k t, model !! k = Some t → k ∉ names items →
         state_dict !! k = Some (Tensor t)).
Proof.
  intros Hres Hne Hnd.
  destruct (load_checkpoint_resolved load_state_dict evaluate_checkpoint
              checkpoint model w) as (w1 & ->).
  rewrite Hres.
  destruct (select_pretrained_spec (Tensor <$> model) items w1 Hnd)
    as (p & Hsel & Hdom & _ & Hval).
  rewrite dom_fmap_L in Hdom. setoid_rewrite dom_fmap_L in Hval.
  rewrite (apply_checkpoint_dict _ _ _ _ _ _ _ Hsel).
  rewrite decide_False by done.
  exists (p ∪ (Tensor <$> model)). split_and!.
  - by destruct (load_state_dict model (p ∪ (Tensor <$> model))).
  - rewrite dom_union_L, dom_fmap_L, Hdom. set_solver.
  - intros k v Hin Hk. apply lookup_union_Some_l. by apply Hval.
  - intros k t Hk Hnot. rewrite lookup_union_r.
    + by rewrite lookup_fmap, Hk.
    + apply not_elem_of_dom. rewrite Hdom. set_solver.
Qed.

(** A checkpoint whose "ema" entry is a tensor is not loaded: the entry is
    taken for the checkpoint, and asking it for its items raises. So a raw
    state dict with a parameter named "ema" cannot be loaded. *)
Theorem tensor_under_ema_raises_AttributeError
    evaluate_checkpoint (checkpoint : list (string * value tensor)) t
    (model : gmap string tensor) w :
  dict_get "ema" checkpoint = Some (Tensor t) →
  load_checkpoint load_state_dict evaluate_checkpoint checkpoint model w
  = ((print (Text "Using ema ckpt!") w).1,
     inl (AttributeError "'Tensor' object has no attribute 'items'")).
Proof. intros Hema. unfold load_checkpoint. by rewrite Hema. Qed.

End LoaderOutcome.

Lemma loader_outcome_is_that_of_load_state_dict_witness :
  ∃ pretrained_dict : gmap string (value nat),
    dom pretrained_dict
    = names [("a", Tensor 1); ("b", Tensor 2); ("c", Tensor 3)]
      ∩ dom ({[ "a" := 10; "c" := 30; "d" := 40 ]} : gmap string nat)
    ∧ (load_checkpoint load_state_dict_strict "ckpt.pt"
         [("a", Tensor 1); ("b", Tensor 2); ("c", Tensor 3)]
         {[ "a" := 10; "c" := 30; "d" := 40 ]} empty_world).2
      = load_state_dict_strict {[ "a" := 10; "c" := 30; "d" := 40 ]}
          (pretrained_dict
           ∪ (Tensor <$> {[ "a" := 10; "c" := 30; "d" := 40 ]})).
Proof.
  destruct (loader_outcome_is_that_of_load_state_dict load_state_dict_strict
              "ckpt.pt" [("a", Tensor 1); ("b", Tensor 2); ("c", Tensor 3)]
              [("a", Tensor 1); ("b", Tensor 2); ("c", Tensor 3)]
              {[ "a" := 10; "c" := 30; "d" := 40 ]} empty_world eq_refl)
    as (p & Hdom & _ & Hload); [done|].
  exists p. split; [exact Hdom|exact Hload].
Defined.

Lemma loader_reports_fraction_applied_witness :
  LoadedPercent
    (Quotient
       (size (names [("a", Tensor 1); ("b", Tensor 2); ("c", Tensor 3)]
              ∩ dom ({[ "a" := 10; "c" := 30; "d" := 40 ]}
                       : gmap string nat)))
       (size (names ([("a", Tensor 1); ("b", Tensor 2); ("c", Tensor 3)]
                       : list (string * value nat)))))
    ∈ stdout (apply_checkpoint load_state_dict_strict "ckpt.pt"
                (Dict [("a", Tensor 1); ("b", Tensor 2); ("c", Tensor 3)])
                {[ "a" := 10; "c" := 30; "d" := 40 ]} empty_world).1.
Proof.
  apply (loader_reports_fraction_applied load_state_dict_strict "ckpt.pt"
           [("a", Tensor 1); ("b", Tensor 2); ("c", Tensor 3)]
           {[ "a" := 10; "c" := 30; "d" := 40 ]} empty_world).
  - done.
  - simpl. repeat (constructor; [set_solver|]). constructor.
Defined.

Lemma state_dict_takes_the_checkpoint_values_witness :
  ∃ state_dict : gmap string (value nat),
    (load_checkpoint load_state_dict_strict "ckpt.pt"
       [("ema", Dict [("a", Tensor 1); ("b", Tensor 2); ("c", Tensor 3)]);
        ("a", Tensor 99)]
       {[ "a" := 10; "c" := 30; "d" := 40 ]} empty_world).2
    = load_state_dict_strict {[ "a" := 10; "c" := 30; "d" := 40 ]} state_dict
    ∧ state_dict !! "a" = Some (Tensor 1)
    ∧ state_dict !! "d" = Some (Tensor 40).
Proof.
  assert (Hnd : NoDup ([("a", Tensor 1); ("b", Tensor 2); ("c", Tensor 3)]
                         : list (string * value nat)).*1)
    by (simpl; repeat (constructor; [set_solver|]); constructor).
  destruct (state_dict_takes_the_checkpoint_values load_state_dict_strict
              "ckpt.pt"
              [("ema", Dict [("a", Tensor 1); ("b", Tensor 2);
                             ("c", Tensor 3)]);
               ("a", Tensor 99)]
              [("a", Tensor 1); ("b", Tensor 2); ("c", Tensor 3)]
              {[ "a" := 10; "c" := 30; "d" := 40 ]} empty_world eq_refl)
    as (state_dict & Hload & _ & Hshared & Hother); [done|exact Hnd|].
  exists state_dict. split_and!; [exact Hload| |].
  - apply Hshared; set_solver.
  - apply Hother; [done|]. unfold names. simpl. set_solver.
Defined.

Lemma tensor_under_ema_raises_AttributeError_witness :
  (load_checkpoint load_state_dict_strict "ckpt.pt"
     [("ema", Tensor 7); ("w", Tensor 8)] {[ "ema" := 0; "w" := 0 ]}
     empty_world).2
  = inl (AttributeError "'Tensor' object has no attribute 'items'").
Proof.
  by rewrite (tensor_under_ema_raises_AttributeError load_state_dict_strict
                "ckpt.pt" [("ema", Tensor 7); ("w", Tensor 8)] 7
                {[ "ema" := 0; "w" := 0 ]} empty_world eq_refl).
Defined.

(** ** More on the session loop *)

Section SessionMore.

Context {L raw_frame G : Type} `{!TensorOps L}.

Variable resize_preprocess : list image → list image.

Variable to_uint8_hwc : raw_frame → image.

Variable generate_single_video :
  G → latent L → list control_vector →
  G * (exn + (list raw_frame * list (latent L))).

Local Abbreviation Round := (round to_uint8_hwc generate_single_video).
Local Abbreviation Rounds := (rounds to_uint8_hwc generate_single_video).

Implicit Types (s : session L G) (w : world).

Lemma rounds_single a s0 w0 w s :
  Round a s0 w0 = (w, inr s) → Rounds [a] s0 w0 = (w, inr s).
Proof. intros H. unfold rounds. simpl. unfold bind. by rewrite H. Qed.

(** The file a round of a run wrote is there at the end of the run, with
    the buffer as it stood after that round. *)
Lemma rounds_file inputs s0 w0 w s n :
  Rounds inputs s0 w0 = (w, inr s) → n < length inputs →
  ∃ w_n s_n,
    Rounds (take (S n) inputs) s0 w0 = (w_n, inr s_n)
    ∧ videos w !! output_video_path (seg_idx s0 + n)
      = Some (Video 4 (all_video s_n)).
Proof.
  intros Hrun Hn.
  destruct (rounds_take _ _ _ _ _ _ _ (S n) Hrun)
    as (w_n & s_n & Hpre & Hsuf).
  exists w_n, s_n. split; [exact Hpre|].
  assert (Hfile : videos w_n !! output_video_path (seg_idx s0 + n)
                  = Some (Video 4 (all_video s_n))).
  { destruct (lookup_lt_is_Some_2 inputs n Hn) as [a Ha].
    pose proof Hpre as Hpre'.
    rewrite (take_S_r _ _ _ Ha), rounds_app in Hpre'.
    apply bind_inv in Hpre' as (w_m & s_m & Hm & Hlast).
    apply rounds_single_inv in Hlast.
    apply round_inv in Hlast as (g & sv & sl & ll & _ & _ & _ & Hv & _).
    rewrite Hv, (rounds_seg_idx _ _ _ _ _ _ _ Hm), length_take.
    replace (n `min` length inputs) with n by lia.
    apply lookup_insert_eq. }
  rewrite <- Hfile. eapply rounds_videos_other; [exact Hsuf|].
  intros k Hk Heq. apply output_video_path_inj in Heq.
  rewrite (rounds_seg_idx _ _ _ _ _ _ _ Hpre), length_take in Hk. lia.
Qed.


(** A run that raises stops at its first failing round: the rounds before
    it completed, and the files are exactly those they left. *)
Theorem run_stops_at_first_failing_round inputs s0 w0 w e :
  rounds to_uint8_hwc generate_single_video inputs s0 w0 = (w, inl e) →
  ∃ n env_actions w_n s_n,
    inputs !! n = Some env_actions
    ∧ rounds to_uint8_hwc generate_single_video (take n inputs) s0 w0
      = (w_n, inr s_n)
    ∧ round to_uint8_hwc generate_single_video env_actions s_n w_n
      = (w, inl e)
    ∧ videos w = videos w_n
    ∧ seg_idx s_n = seg_idx s0 + n.
Proof.
  revert s0 w0. induction inputs as [|a inputs IH]; intros s0 w0 H.
  - discriminate.
  - change (bind (Round a s0) (Rounds inputs) w0 = (w, inl e)) in H.
    unfold bind in H. destruct (Round a s0 w0) as [w1 [e1|s1]] eqn:Hr.
    + injection H as <- <-. exists 0, a, w0, s0.
      split_and!; try done; try lia.
      by apply round_raises in Hr as (Hv & _).
    + apply IH in H as (n & b & w_n & s_n & Hb & Hpre & Hfail & Hv & Hidx).
      exists (S n), b, w_n, s_n. split_and!; try done.
      { change (bind (Round a s0) (Rounds (take n inputs)) w0
                = (w_n, inr s_n)).
        unfold bind. by rewrite Hr. }
      rewrite Hidx.
      apply round_inv in Hr as (g & sv & sl & ll & _ & _ & -> & _).
      simpl. lia.
Qed.

(** Start-up. With a latent and a frame to start from, it saves the first
    frame as the still image and returns the state of round 0: the first
    latent, a buffer of that one frame, index 0. Without either it raises
    IndexError, and then no image has been saved. *)
Theorem startup_outcome (latent_video : list (latent L)) video_tensor
    (g : G) w :
  (∀ l0 ls f0 fs,
     latent_video = l0 :: ls → resize_preprocess video_tensor = f0 :: fs →
     startup resize_preprocess latent_video video_tensor g w
     = (World
          (stdout w
           ++ [Text ("Creating game directory: " +:+ game_dir);
               Text ("Saving the first image of the video to: "
                     +:+ path_join game_dir "first_image.png")])
          (<[path_join game_dir "first_image.png" := f0]> (images w))
          (videos w) (next_storage w),
        inr (Session l0 [[f0]] 0 g)))
  ∧ (latent_video = [] ∨ resize_preprocess video_tensor = [] →
     (startup resize_preprocess latent_video video_tensor g w).2
     = inl IndexError
     ∧ images (startup resize_preprocess latent_video video_tensor g w).1
       = images w).
Proof.
  unfold startup, bind, print, getitem, imwrite, ret, raise. simpl.
  rewrite drop_0. split.
  - intros l0 ls f0 fs -> ->. simpl. by rewrite <- app_assoc.
  - intros [->| ->]; simpl; [done|].
    by destruct (latent_video !! 0).
Qed.

(** Chaining. The generator call of a round gets the generator state the
    previous round's call left and, as its seed, a latent with what
    [squeeze()[-1]] was of the trajectory that call returned: the last
    latent, squeezed, of two latents or more; the last slice of the latent
    of a trajectory of one. *)
Theorem next_round_is_seeded_by_last_latent
    env_actions env_actions' s w w1 s1 w2 s2 :
  Round env_actions s w = (w1, inr s1) →
  Round env_actions' s1 w1 = (w2, inr s2) →
  ∃ g1 seg_video1 seg_latents1 last_latent1 seed g2 seg_video2 seg_latents2,
    generate_single_video (generator s) (start_image s)
      (encode_actions env_actions) = (g1, inr (seg_video1, seg_latents1))
    ∧ last seg_latents1 = Some last_latent1
    ∧ generate_single_video g1 seed (encode_actions env_actions')
      = (g2, inr (seg_video2, seg_latents2))
    ∧ (2 ≤ length seg_latents1 →
       payload seed = squeeze (payload last_latent1))
    ∧ (length seg_latents1 = 1 →
       last_slice (squeeze (payload last_latent1)) = Some (payload seed))
    ∧ all_video s2
      = all_video s ++ drop 1 (to_uint8_hwc <$> seg_video1)
        ++ drop 1 (to_uint8_hwc <$> seg_video2).
Proof.
  intros (g1 & sv1 & sl1 & view & Hgen1 & Hview & Hs1 & _)%round_inv
         (g2 & sv2 & sl2 & view2 & Hgen2 & _ & Hs2 & _)%round_inv.
  apply last_view_Some in Hview as (t & Hlast & _ & Hmany & Hone).
  exists g1, sv1, sl1, t, (start_image s1), g2, sv2, sl2.
  rewrite Hs1 in Hgen2. simpl in Hgen2.
  split_and!; try done.
  - by rewrite Hs1.
  - by rewrite Hs1.
  - by rewrite Hs1.
  - rewrite Hs2, Hs1. unfold all_video. simpl.
    rewrite !concat_app. simpl. by rewrite !app_nil_r, <- app_assoc.
Qed.

(** Each round's video begins with the video of the round before: the
    files of a run are a chain of prefixes, starting from the buffer the
    run began with. *)
Theorem each_video_extends_the_previous inputs s0 w0 w s n :
  Rounds inputs s0 w0 = (w, inr s) → S n < length inputs →
  ∃ frames_n frames_n1,
    videos w !! output_video_path (seg_idx s0 + n) = Some (Video 4 frames_n)
    ∧ videos w !! output_video_path (seg_idx s0 + S n)
      = Some (Video 4 frames_n1)
    ∧ all_video s0 `prefix_of` frames_n
    ∧ frames_n `prefix_of` frames_n1
    ∧ frames_n1 `prefix_of` all_video s.
Proof.
  intros Hrun Hn.
  destruct (rounds_file _ _ _ _ _ n Hrun) as (w_n & s_n & Hpre & Hfile);
    [lia|].
  destruct (rounds_file _ _ _ _ _ (S n) Hrun)
    as (w_n1 & s_n1 & Hpre1 & Hfile1); [lia|].
  exists (all_video s_n), (all_video s_n1). split_and!; try done.
  - destruct (segments_all_video _ _ _ _ _ _ _ Hpre) as [_ ->].
    by apply prefix_app_r.
  - destruct (lookup_lt_is_Some_2 inputs (S n) Hn) as [a Ha].
    rewrite (take_S_r _ _ _ Ha), rounds_app in Hpre1.
    apply bind_inv in Hpre1 as (w_m & s_m & Hm & Hlast).
    rewrite Hpre in Hm. injection Hm as <- <-.
    apply rounds_single_inv in Hlast.
    destruct (segments_all_video _ _ _ _ _ _ _
                (rounds_single _ _ _ _ _ Hlast)) as [_ ->].
    by apply prefix_app_r.
  - destruct (rounds_take _ _ _ _ _ _ _ (S (S n)) Hrun)
      as (w' & s' & Hpre' & Hsuf).
    rewrite Hpre1 in Hpre'. injection Hpre' as <- <-.
    destruct (segments_all_video _ _ _ _ _ _ _ Hsuf) as [_ ->].
    by apply prefix_app_r.
Qed.

End SessionMore.

Lemma run_stops_at_first_failing_round_witness :
  ∃ n env_actions w_n s_n,
    sample_inputs !! n = Some env_actions
    ∧ rounds id failing_generator (take n sample_inputs) sample_session
        sample_started = (w_n, inr s_n)
    ∧ round id failing_generator env_actions s_n w_n
      = ((rounds id failing_generator sample_inputs sample_session
            sample_started).1, inl (Raised "CUDA out of memory"))
    ∧ videos (rounds id failing_generator sample_inputs sample_session
                sample_started).1 = videos w_n
    ∧ seg_idx s_n = seg_idx sample_session + n.
Proof.
  apply (run_stops_at_first_failing_round id failing_generator sample_inputs
           sample_session sample_started).
  vm_compute. reflexivity.
Defined.

Lemma next_round_is_seeded_by_last_latent_witness :
  ∃ g1 seg_video1 last_latent1 seed g2 seg_video2 seg_latents2,
    single_generator 0 (Latent 0 (Scalar 0)) (encode_actions ["w"])
    = (g1, inr (seg_video1, [last_latent1]))
    ∧ single_generator g1 seed (encode_actions ["s"])
      = (g2, inr (seg_video2, seg_latents2))
    ∧ payload last_latent1
      = Stack [Stack [Scalar 1; Scalar 2]; Stack [Scalar 3; Scalar 4]]
    ∧ payload seed = Stack [Scalar 3; Scalar 4].
Proof.
  assert (H1 : ∃ w1 s1 w2 s2,
    round id single_generator ["w"]
      (Session (Latent 0 (Scalar 0)) [[sample_frame]] 0 0) sample_started
    = (w1, inr s1)
    ∧ round id single_generator ["s"] s1 w1 = (w2, inr s2))
    by (eexists _, _, _, _; split; vm_compute; reflexivity).
  destruct H1 as (w1 & s1 & w2 & s2 & H1 & H2).
  destruct (next_round_is_seeded_by_last_latent id single_generator
              ["w"] ["s"] _ _ _ _ _ _ H1 H2)
    as (g1 & sv1 & sl1 & t & seed & g2 & sv2 & sl2
        & Hgen1 & Hlast & Hgen2 & _ & Hone & _).
  injection Hgen1 as <- <- <-. injection Hlast as <-.
  specialize (Hone eq_refl). injection Hone as Hseed.
  eexists _, _, _, seed, g2, sv2, sl2.
  split_and!; [reflexivity|exact Hgen2|reflexivity|by rewrite <- Hseed].
Defined.

Lemma each_video_extends_the_previous_witness :
  ∃ frames_0 frames_1,
    videos (rounds id sample_generator sample_inputs sample_session
              sample_started).1 !! output_video_path 0
    = Some (Video 4 frames_0)
    ∧ videos (rounds id sample_generator sample_inputs sample_session
                sample_started).1 !! output_video_path 1
      = Some (Video 4 frames_1)
    ∧ [sample_frame] `prefix_of` frames_0
    ∧ frames_0 `prefix_of` frames_1.
Proof.
  assert (Hrun : ∃ s,
    rounds id sample_generator sample_inputs sample_session sample_started
    = ((rounds id sample_generator sample_inputs sample_session
          sample_started).1, inr s))
    by (eexists; vm_compute; reflexivity).
  destruct Hrun as (s & Hrun).
  destruct (each_video_extends_the_previous id sample_generator
              sample_inputs sample_session sample_started _ s 0 Hrun)
    as (frames_0 & frames_1 & H0 & H1 & Hp0 & Hp1 & _);
    [simpl; lia|].
  exists frames_0, frames_1. split_and!; [exact H0|exact H1|exact Hp0|exact Hp1].
Defined.

(** ** The overlay, pixel by pixel *)

Arguments position : simpl never.

(** A loop whose body returns and keeps an invariant of the number of
    elements gone through returns, with the invariant at the end. *)
Lemma for_each_inv {A St} (I : nat → St → Prop) (xs : list A)
    (body : St → A → M St) w s :
  I 0 s →
  (∀ k x s, xs !! k = Some x → I k s →
     ∃ s', body s x w = (w, inr s') ∧ I (S k) s') →
  ∃ s', for_each xs body s w = (w, inr s') ∧ I (length xs) s'.
Proof.
  revert I s. induction xs as [|x xs IH]; intros I s H0 Hstep.
  - by exists s.
  - destruct (Hstep 0 x s eq_refl H0) as (s1 & Hx & H1).
    destruct (IH (λ k, I (S k)) s1 H1) as (s' & Hrest & Hend).
    { intros k y s2 Hy. by apply (Hstep (S k)). }
    exists s'. split; [|done]. simpl. unfold bind. by rewrite Hx.
Qed.

(** When a loop returns, each of its elements was gone through, from a
    state the start is related to. *)
Lemma for_each_steps {A S} (R : S → S → Prop) (xs : list A)
    (body : S → A → M S) :
  Reflexive R → Transitive R →
  (∀ s x w w' s', body s x w = (w', inr s') → w' = w ∧ R s s') →
  ∀ s w w' s', for_each xs body s w = (w', inr s') →
  ∀ k x, xs !! k = Some x →
    ∃ s_k s_k', R s s_k ∧ body s_k x w = (w, inr s_k').
Proof.
  intros Hrefl Htrans Hbody.
  induction xs as [|a xs IH]; intros s w w' s' H k x Hk; [done|].
  simpl in H. apply bind_inv in H as (w1 & s1 & Ha & Hrest).
  destruct (Hbody _ _ _ _ _ Ha) as [-> HR].
  destruct k as [|k].
  - injection Hk as <-. by exists s, s1.
  - destruct (IH _ _ _ _ Hrest k x Hk) as (s_k & s_k' & HR' & Hx).
    exists s_k, s_k'. split; [by etrans|done].
Qed.

Lemma pixel_at_Some (m : image) i j px :
  pixel_at m i j = Some px ↔ ∃ row, m !! i = Some row ∧ row !! j = Some px.
Proof.
  unfold pixel_at. destruct (m !! i) as [row|]; simpl; naive_solver.
Qed.

Lemma pixel_at_shape f g r c :
  shape f = shape g → is_Some (pixel_at f r c) → is_Some (pixel_at g r c).
Proof.
  unfold shape. intros Hs [px (row & Hrow & Hpx)%pixel_at_Some].
  assert (Hr : (length <$> g) !! r = Some (length row))
    by (by rewrite <- Hs, list_lookup_fmap, Hrow).
  rewrite list_lookup_fmap in Hr.
  destruct (g !! r) as [row'|] eqn:Hrow'; [|done].
  injection Hr as Hr. apply lookup_lt_Some in Hpx.
  destruct (lookup_lt_is_Some_2 row' c) as [px' Hpx']; [lia|].
  exists px'. apply pixel_at_Some. by exists row'.
Qed.

(** Two frames of one shape with the same pixels are the same frame. *)
Lemma image_ext (f g : image) :
  shape f = shape g → (∀ r c, pixel_at f r c = pixel_at g r c) → f = g.
Proof.
  unfold shape. intros Hs Hpx. apply list_eq. intros r.
  assert (Hr : (length <$> f) !! r = (length <$> g) !! r) by (by rewrite Hs).
  rewrite !list_lookup_fmap in Hr.
  destruct (f !! r) as [row|] eqn:Hf, (g !! r) as [row'|] eqn:Hg;
    try done.
  f_equal. apply list_eq. intros c.
  specialize (Hpx r c). unfold pixel_at in Hpx. by rewrite Hf, Hg in Hpx.
Qed.

Lemma rectangular_lookup (m : image) i row :
  rectangular m → m !! i = Some row → length row = width m.
Proof.
  intros Hrect Hrow. unfold rectangular in Hrect.
  rewrite Forall_lookup in Hrect. by apply (Hrect i).
Qed.

Lemma pixel_at_rectangular (m : image) i j :
  rectangular m →
  is_Some (pixel_at m i j) ↔ i < length m ∧ j < width m.
Proof.
  intros Hrect. split.
  - intros [px (row & Hrow & Hpx)%pixel_at_Some].
    rewrite <- (rectangular_lookup _ _ _ Hrect Hrow).
    split; by eapply lookup_lt_Some.
  - intros [Hi Hj].
    destruct (lookup_lt_is_Some_2 m i Hi) as [row Hrow].
    rewrite <- (rectangular_lookup _ _ _ Hrect Hrow) in Hj.
    destruct (lookup_lt_is_Some_2 row j Hj) as [px Hpx].
    exists px. apply pixel_at_Some. by exists row.
Qed.

Lemma arrow_pixel_on_at arrow_img i j px :
  pixel_at arrow_img i j = Some px →
  arrow_pixel_on arrow_img (position.1 + i) (position.2 + j)
  = if np_any_nonzero px then Some px else None.
Proof.
  intros Hpx. unfold arrow_pixel_on. rewrite decide_True by lia.
  replace (position.1 + i - position.1) with i by lia.
  replace (position.2 + j - position.2) with j by lia.
  by rewrite Hpx.
Qed.

Lemma arrow_pixel_on_outside arrow_img r c :
  rectangular arrow_img →
  r < position.1 ∨ c < position.2
  ∨ position.1 + length arrow_img ≤ r ∨ position.2 + width arrow_img ≤ c →
  arrow_pixel_on arrow_img r c = None.
Proof.
  intros Hrect Hout. unfold arrow_pixel_on. case_decide as Hin; [|done].
  destruct (pixel_at arrow_img (r - position.1) (c - position.2))
    as [px|] eqn:Hpx; [|done].
  assert (His : is_Some (pixel_at arrow_img (r - position.1)
                           (c - position.2))) by (by exists px).
  apply pixel_at_rectangular in His; [|done]. lia.
Qed.

Lemma pixel_at_with_arrow arrow_img frame r c :
  pixel_at (with_arrow arrow_img frame) r c
  = (λ px, default px (arrow_pixel_on arrow_img r c)) <$> pixel_at frame r c.
Proof.
  unfold pixel_at, with_arrow. rewrite list_lookup_imap.
  destruct (frame !! r) as [row|]; [|done]. simpl.
  by rewrite list_lookup_imap.
Qed.

Lemma shape_with_arrow arrow_img frame :
  shape (with_arrow arrow_img frame) = shape frame.
Proof.
  unfold shape, with_arrow. apply list_eq. intros r.
  rewrite !list_lookup_fmap, list_lookup_imap.
  destruct (frame !! r) as [row|]; [|done]. simpl. by rewrite length_imap.
Qed.

(** The pixel the closed form has at a place: the arrow's, where the arrow
    has one that is not black, and the frame's elsewhere. *)
Lemma pixel_at_with_arrow_fits arrow_img frame r c :
  fits arrow_img frame →
  pixel_at (with_arrow arrow_img frame) r c
  = match arrow_pixel_on arrow_img r c with
    | Some px => Some px
    | None => pixel_at frame r c
    end.
Proof.
  intros Hfits. rewrite pixel_at_with_arrow.
  destruct (arrow_pixel_on arrow_img r c) as [a|] eqn:Ha.
  - unfold arrow_pixel_on in Ha. case_decide as Hin; [|done].
    destruct (pixel_at arrow_img (r - position.1) (c - position.2))
      as [px|] eqn:Hpx; [|done].
    simpl in Ha. destruct (np_any_nonzero px) eqn:Hnz; [|done].
    injection Ha as ->. destruct (Hfits _ _ _ Hpx Hnz) as [old Hold].
    replace (position.1 + (r - position.1)) with r in Hold by lia.
    replace (position.2 + (c - position.2)) with c in Hold by lia.
    by rewrite Hold.
  - by destruct (pixel_at frame r c).
Qed.

Lemma draw_pixel_step arrow_img i j f px w :
  pixel_at arrow_img i j = Some px →
  (np_any_nonzero px = true →
   is_Some (pixel_at f (position.1 + i) (position.2 + j))) →
  ∃ f',
    draw_pixel arrow_img i f j w = (w, inr f')
    ∧ shape f' = shape f
    ∧ ∀ r c,
        pixel_at f' r c
        = if decide (np_any_nonzero px = true
                     ∧ r = position.1 + i ∧ c = position.2 + j)
          then Some px else pixel_at f r c.
Proof.
  intros Hpx Hin. unfold draw_pixel, bind, getitem2.
  fold (pixel_at arrow_img i j). rewrite Hpx. unfold ret at 1.
  destruct (np_any_nonzero px) eqn:Hnz.
  - destruct (Hin eq_refl) as [old (row & Hrow & Hold)%pixel_at_Some].
    unfold setitem. rewrite Hrow.
    apply lookup_lt_Some in Hold as Hc. rewrite decide_True by done.
    eexists. split; [done|]. split.
    + unfold shape. rewrite list_fmap_insert, length_insert.
      apply list_insert_id. by rewrite list_lookup_fmap, Hrow.
    + intros r c. rewrite (pixel_at_insert _ _ _ _ _ _ _ Hrow Hc).
      repeat case_decide; naive_solver.
  - exists f. split; [done|]. split; [done|]. intros r c.
    rewrite decide_False; [done|]. by intros [? _].
Qed.

(** A step of the inner loop that returns leaves the world and the shape
    of the frame as they were. *)
Lemma draw_pixel_shape arrow_img i j f w w' f' :
  draw_pixel arrow_img i f j w = (w', inr f') → w' = w ∧ shape f = shape f'.
Proof.
  unfold draw_pixel, bind, getitem2.
  destruct (arrow_img !! i ≫= (.!! j)) as [px|]; [|discriminate].
  unfold ret at 1. destruct (np_any_nonzero px).
  - unfold setitem.
    destruct (f !! (position.1 + i)) as [row|] eqn:Hrow; [|discriminate].
    case_decide as Hc; [|discriminate].
    intros [<- <-]%ok_inv. split; [done|].
    unfold shape. rewrite list_fmap_insert, length_insert.
    symmetry. apply list_insert_id. by rewrite list_lookup_fmap, Hrow.
  - by intros [<- <-]%ok_inv.
Qed.

(** The arrow's pixel or the frame's: what the loops make of a place. *)
Local Abbreviation Stamped arrow_img frame r c :=
  (match arrow_pixel_on arrow_img r c with
   | Some px => Some px
   | None => pixel_at frame r c
   end).

Lemma draw_row arrow_img frame f i w :
  rectangular arrow_img → fits arrow_img frame → i < length arrow_img →
  shape f = shape frame →
  (∀ r c, pixel_at f r c
          = if decide (r < position.1 + i) then Stamped arrow_img frame r c
            else pixel_at frame r c) →
  ∃ f',
    for_each (seq 0 (width arrow_img)) (draw_pixel arrow_img i) f w
    = (w, inr f')
    ∧ shape f' = shape frame
    ∧ ∀ r c, pixel_at f' r c
             = if decide (r < position.1 + S i)
               then Stamped arrow_img frame r c else pixel_at frame r c.
Proof.
  intros Hrect Hfits Hi Hshape Hpix.
  destruct (for_each_inv
    (λ j f2, shape f2 = shape frame
             ∧ ∀ r c, pixel_at f2 r c
                 = if decide (r < position.1 + i
                              ∨ (r = position.1 + i ∧ c < position.2 + j))
                   then Stamped arrow_img frame r c
                   else pixel_at frame r c)
    (seq 0 (width arrow_img)) (draw_pixel arrow_img i) w f)
    as (f' & Hrun & Hs' & Hp').
  - split; [done|]. intros r c. rewrite Hpix.
    destruct (decide (r < position.1 + i)) as [Hr|Hr].
    + by rewrite decide_True by lia.
    + case_decide as Hrc; [|done].
      rewrite arrow_pixel_on_outside; [done|done|lia].
  - intros k j f2 [-> Hk]%lookup_seq [Hs2 Hp2]. change (0 + k) with k.
    destruct (proj2 (pixel_at_rectangular arrow_img i k Hrect))
      as [px Hpx]; [done|].
    destruct (draw_pixel_step arrow_img i k f2 px w Hpx)
      as (f3 & Hstep & Hs3 & Hp3).
    { intros Hnz. rewrite Hp2, decide_False by lia. by eapply Hfits. }
    exists f3. split; [done|]. split; [by rewrite Hs3|].
    intros r c. rewrite Hp3, Hp2.
    destruct (decide (r = position.1 + i ∧ c = position.2 + k))
      as [[-> ->]|Hne].
    + rewrite (arrow_pixel_on_at _ _ _ _ Hpx).
      destruct (np_any_nonzero px).
      * rewrite decide_True by done. by rewrite decide_True by lia.
      * rewrite decide_False by (by intros [? _]).
        rewrite decide_False by lia. by rewrite decide_True by lia.
    + rewrite decide_False by tauto.
      destruct (decide (r < position.1 + i
                        ∨ r = position.1 + i ∧ c < position.2 + k)).
      * by rewrite decide_True by lia.
      * by rewrite decide_False by lia.
  - exists f'. split; [done|]. split; [done|]. intros r c. rewrite Hp'.
    rewrite length_seq.
    destruct (decide (r < position.1 + S i)) as [Hr|Hr].
    + case_decide as Hrc; [done|].
      rewrite arrow_pixel_on_outside; [done|done|lia].
    + by rewrite decide_False by lia.
Qed.

Lemma draw_arrow_with_arrow arrow_img frame w :
  rectangular arrow_img → fits arrow_img frame →
  draw_arrow arrow_img frame w = (w, inr (with_arrow arrow_img frame)).
Proof.
  intros Hrect Hfits.
  destruct (for_each_inv
    (λ i f, shape f = shape frame
            ∧ ∀ r c, pixel_at f r c
                = if decide (r < position.1 + i)
                  then Stamped arrow_img frame r c else pixel_at frame r c)
    (seq 0 (length arrow_img))
    (λ frame i,
       for_each (seq 0 (width arrow_img)) (draw_pixel arrow_img i) frame)
    w frame) as (f' & Hrun & Hs' & Hp').
  - split; [done|]. intros r c. case_decide as Hr; [|done].
    rewrite arrow_pixel_on_outside; [done|done|lia].
  - intros k i f [-> Hk]%lookup_seq [Hs Hp]. change (0 + k) with k.
    destruct (draw_row arrow_img frame f k w) as (f2 & ? & ? & ?); try done.
    by exists f2.
  - unfold draw_arrow. rewrite Hrun. do 2 f_equal.
    apply image_ext; [by rewrite shape_with_arrow|].
    intros r c. rewrite Hp', pixel_at_with_arrow_fits by done.
    rewrite length_seq. case_decide as Hr; [done|].
    rewrite arrow_pixel_on_outside; [done|done|lia].
Qed.

Lemma shape_refl : Reflexive (λ f f' : image, shape f = shape f').
Proof. by intros f. Qed.

Lemma shape_trans : Transitive (λ f f' : image, shape f = shape f').
Proof. intros f g h. apply eq_trans. Qed.

Lemma draw_arrow_does_not_fit arrow_img frame w i j px :
  rectangular arrow_img →
  pixel_at arrow_img i j = Some px → np_any_nonzero px = true →
  pixel_at frame (position.1 + i) (position.2 + j) = None →
  ∃ w', draw_arrow arrow_img frame w = (w', inl IndexError).
Proof.
  intros Hrect Hpx Hnz Hnone.
  destruct (draw_arrow arrow_img frame w) as [w' [e|f']] eqn:Hrun.
  { exists w'. by apply draw_arrow_raises in Hrun as ->. }
  exfalso.
  assert (Hij : i < length arrow_img ∧ j < width arrow_img)
    by (apply pixel_at_rectangular; [done|by exists px]).
  destruct Hij as [Hi Hj]. unfold draw_arrow in Hrun.
  assert (Hinner : ∀ (f2 : image) i2 w2 w2' f2',
    for_each (seq 0 (width arrow_img)) (draw_pixel arrow_img i2) f2 w2
    = (w2', inr f2') → w2' = w2 ∧ shape f2 = shape f2').
  { intros f2 i2.
    apply (for_each_pure (λ f f' : image, shape f = shape f'));
      [apply shape_refl|apply shape_trans|].
    intros f3 j3 w3 w3' f3' _. apply draw_pixel_shape. }
  destruct (for_each_steps (λ f f' : image, shape f = shape f') _ _
              shape_refl shape_trans Hinner _ _ _ _ Hrun i i)
    as (f_i & f_i' & Hs_i & Hrow); [apply lookup_seq; by split|].
  destruct (for_each_steps (λ f f' : image, shape f = shape f') _ _
              shape_refl shape_trans
              (λ f3 j3 w3 w3' f3', draw_pixel_shape arrow_img i j3 f3 w3 w3' f3')
              _ _ _ _ Hrow j j)
    as (f_j & f_j' & Hs_j & Hstep); [apply lookup_seq; by split|].
  assert (His : is_Some (pixel_at f_j (position.1 + i) (position.2 + j))).
  { revert Hstep. unfold draw_pixel, bind, getitem2.
    fold (pixel_at arrow_img i j). rewrite Hpx. unfold ret at 1.
    rewrite Hnz. unfold setitem.
    destruct (f_j !! (position.1 + i)) as [row|] eqn:Hr; [|discriminate].
    case_decide as Hc; [|discriminate]. intros _.
    destruct (lookup_lt_is_Some_2 row _ Hc) as [old Hold].
    exists old. apply pixel_at_Some. by exists row. }
  apply (pixel_at_shape _ frame) in His; [|by rewrite Hs_i, Hs_j].
  rewrite Hnone in His. by destruct His.
Qed.

(** ** The turned arrow, pixel by pixel *)

Lemma rectangular_const n (m : image) :
  Forall (λ row : list pixel, length row = n) m → rectangular m.
Proof.
  unfold rectangular, width. destruct m as [|row m]; [constructor|].
  intros Hall. apply Forall_cons in Hall as Hrow. destruct Hrow as [Hrow _].
  simpl. eapply Forall_impl; [exact Hall|]. simpl. intros; congruence.
Qed.

Lemma width_const n (m : image) :
  m ≠ [] → Forall (λ row : list pixel, length row = n) m → width m = n.
Proof.
  unfold width. destruct m as [|row m]; [done|].
  intros _ Hall. by apply Forall_cons in Hall as [Hrow _].
Qed.

Lemma pixel_at_width (m : image) i j :
  rectangular m → width m ≤ j → pixel_at m i j = None.
Proof.
  intros Hrect Hj.
  destruct (pixel_at m i j) as [px|] eqn:Hpx; [|done].
  assert (His : is_Some (pixel_at m i j)) by (by exists px).
  apply pixel_at_rectangular in His; [|done]. lia.
Qed.

Lemma rectangular_flipud (m : image) :
  rectangular m →
  rectangular (flipud m) ∧ length (flipud m) = length m
  ∧ ∀ i j, i < length m →
      pixel_at (flipud m) i j = pixel_at m (length m - S i) j.
Proof.
  intros Hrect. unfold flipud. split_and!.
  - apply (rectangular_const (width m)). by apply Forall_reverse.
  - apply length_reverse.
  - intros i j Hi. unfold pixel_at. by rewrite reverse_lookup.
Qed.

Lemma rectangular_fliplr (m : image) :
  rectangular m →
  rectangular (fliplr m) ∧ length (fliplr m) = length m
  ∧ width (fliplr m) = width m
  ∧ ∀ i j, j < width m →
      pixel_at (fliplr m) i j = pixel_at m i (width m - S j).
Proof.
  intros Hrect. unfold fliplr.
  assert (Hall : Forall (λ row : list pixel, length row = width m)
                   (reverse <$> m)).
  { apply Forall_fmap. eapply Forall_impl; [exact Hrect|].
    simpl. intros row Hrow. by rewrite length_reverse. }
  split_and!.
  - by apply (rectangular_const (width m)).
  - apply length_fmap.
  - destruct m as [|row m]; [done|]. by apply width_const.
  - intros i j Hj. unfold pixel_at. rewrite list_lookup_fmap.
    destruct (m !! i) as [row|] eqn:Hrow; [|done]. simpl.
    rewrite <- (rectangular_lookup _ _ _ Hrect Hrow) in Hj |- *.
    by apply reverse_lookup.
Qed.

(** Column [j] of an array all of whose rows reach it. *)
Lemma column_lookup (m : image) j :
  Forall (λ row : list pixel, j < length row) m →
  length (omap (λ row : list pixel, row !! j) m) = length m
  ∧ ∀ i, omap (λ row : list pixel, row !! j) m !! i = pixel_at m i j.
Proof.
  unfold pixel_at. induction m as [|row m IH]; intros Hall; [done|].
  apply Forall_cons in Hall as [Hrow Hall].
  destruct (IH Hall) as [Hlen Hlook].
  destruct (lookup_lt_is_Some_2 row j Hrow) as [px Hpx].
  simpl. rewrite Hpx. simpl. split; [f_equal; exact Hlen|].
  intros [|i]; [done|]. apply Hlook.
Qed.

Lemma rectangular_transpose (m : image) :
  rectangular m →
  rectangular (transpose m)
  ∧ (0 < width m → width (transpose m) = length m)
  ∧ ∀ i j, pixel_at (transpose m) i j = pixel_at m j i.
Proof.
  intros Hrect.
  assert (Hcol : ∀ j, j < width m →
    Forall (λ row : list pixel, j < length row) m).
  { intros j Hj. eapply Forall_impl; [exact Hrect|]. simpl. lia. }
  assert (Hall : Forall (λ row : list pixel, length row = length m)
                   (transpose m)).
  { unfold transpose. apply Forall_fmap, Forall_forall.
    intros j [_ Hj]%elem_of_seq. simpl.
    by apply column_lookup, Hcol. }
  split_and!.
  - by apply (rectangular_const (length m)).
  - intros Hw. apply width_const; [|done]. unfold transpose.
    destruct (width m); [lia|]. done.
  - intros i j. unfold pixel_at at 1, transpose.
    rewrite list_lookup_fmap.
    destruct (decide (i < width m)) as [Hi|Hi].
    + rewrite lookup_seq_lt by done. simpl.
      by apply column_lookup, Hcol.
    + rewrite lookup_seq_ge by lia. simpl. symmetry.
      apply pixel_at_width; [done|lia].
Qed.

Lemma rectangular_rot90_1 (m : image) :
  rectangular m →
  rectangular (rot90 m 1)
  ∧ ∀ i j, i < width m →
      pixel_at (rot90 m 1) i j = pixel_at m j (width m - S i).
Proof.
  intros Hrect. change (rot90 m 1) with (transpose (fliplr m)).
  destruct (rectangular_fliplr m Hrect) as (Hrect' & _ & _ & Hpx).
  destruct (rectangular_transpose _ Hrect') as (Hrect'' & _ & Hpx').
  split; [done|]. intros i j Hi. by rewrite Hpx', Hpx.
Qed.

Lemma rectangular_rot90_3 (m : image) :
  rectangular m →
  rectangular (rot90 m (-1))
  ∧ ∀ i j, j < length m →
      pixel_at (rot90 m (-1)) i j = pixel_at m (length m - S j) i.
Proof.
  intros Hrect. change (rot90 m (-1)) with (fliplr (transpose m)).
  destruct (rectangular_transpose m Hrect) as (Hrect' & Hw & Hpx).
  destruct (rectangular_fliplr _ Hrect') as (Hrect'' & _ & _ & Hpx').
  split; [done|]. intros i j Hj.
  destruct (decide (0 < width m)) as [Hpos|Hzero].
  - rewrite Hpx' by (rewrite Hw by done; done).
    by rewrite Hw, Hpx by done.
  - rewrite (pixel_at_width m _ i) by (done || lia).
    unfold transpose. by replace (width m) with 0 by lia.
Qed.

Lemma rectangular_spec_arrow direction (base : image) :
  rectangular base → rectangular (spec_arrow direction base).
Proof.
  intros Hrect. unfold spec_arrow. repeat case_decide.
  - by apply rectangular_flipud.
  - by apply rectangular_rot90_1.
  - by apply rectangular_rot90_3.
  - done.
Qed.

(** What turning the arrow means for its pixels. From an arrow file of H
    rows and W columns, s gives the rows in reverse order; a gives W rows,
    row i being column W-1-i of the file read downwards; d gives W rows,
    row i being column i of the file read upwards; anything else gives the
    file as it is. The image returned is an array again. This is of a call
    that returns, whatever its size. *)
Theorem arrow_is_turned_for_its_direction
    direction size color w w' arrow_img base :
  create_arrow_image direction size color w = (w', inr arrow_img) →
  images w !! image_path = Some base → rectangular base →
  rectangular arrow_img
    ∧ (direction = "s" →
         ∀ i j, i < length base →
           pixel_at arrow_img i j = pixel_at base (length base - S i) j)
    ∧ (direction = "a" →
         ∀ i j, i < width base →
           pixel_at arrow_img i j = pixel_at base j (width base - S i))
    ∧ (direction = "d" →
         ∀ i j, j < length base →
           pixel_at arrow_img i j = pixel_at base (length base - S j) i)
    ∧ (direction ∉ ["s"; "a"; "d"] → arrow_img = base).
Proof.
  intros (_ & base' & Hbase' & ->)%create_arrow_image_inv Hbase Hrect.
  rewrite Hbase in Hbase'. injection Hbase' as <-.
  split; [by apply rectangular_spec_arrow|].
  unfold spec_arrow. split_and!.
  - intros ->. rewrite decide_True by done. by apply rectangular_flipud.
  - intros ->. rewrite decide_False by done. rewrite decide_True by done.
    by apply rectangular_rot90_1.
  - intros ->. do 2 rewrite decide_False by done.
    rewrite decide_True by done. by apply rectangular_rot90_3.
  - intros Hdir.
    repeat case_decide; subst; try done; exfalso; apply Hdir; set_solver.
Qed.

(** ** The overlay as a whole *)

Lemma overlay_frame_fits writer done frame action w base :
  images w !! image_path = Some base → rectangular base →
  (action ≠ " " → fits (spec_arrow action base) frame) →
  overlay_frame writer done (frame, action) w
  = (World (stdout w ++ reading_lines [action]) (images w)
       (alter (λ v, Video (fps v) (frames v ++ [overlaid base frame action]))
          writer (videos w))
       (next_storage w),
     inr (done ++ [overlaid base frame action])).
Proof.
  intros Hbase Hrect Hfits. unfold overlay_frame, overlaid, reading_lines.
  unfold bind at 1. destruct (decide (action ≠ " ")) as [Ha|Ha].
  - unfold bind at 1. rewrite create_arrow_image_nonneg by lia.
    rewrite Hbase.
    rewrite draw_arrow_with_arrow
      by (by apply rectangular_spec_arrow || by apply Hfits).
    rewrite filter_cons_True by done.
    unfold bind, append_data, ret, print. by simpl.
  - rewrite filter_cons_False by done.
    unfold ret at 1, bind, append_data, ret. simpl. by rewrite app_nil_r.
Qed.

Lemma overlay_loop_fits writer video_np actions acc fs out imgs vs n base :
  length actions = length video_np →
  imgs !! image_path = Some base → rectangular base →
  (∀ k frame action,
     video_np !! k = Some frame → actions !! k = Some action →
     action ≠ " " → fits (spec_arrow action base) frame) →
  for_each (zip video_np actions) (overlay_frame writer) acc
    (World out imgs (<[writer := Video 4 fs]> vs) n)
  = (World (out ++ reading_lines actions) imgs
       (<[writer := Video 4 (fs ++ zip_with (overlaid base) video_np actions)]>
          vs) n,
     inr (acc ++ zip_with (overlaid base) video_np actions)).
Proof.
  intros Hlen Hbase Hrect. revert actions acc fs out Hlen.
  induction video_np as [|frame video_np IH];
    intros [|a actions] acc fs out Hlen Hfits; try discriminate.
  - simpl. unfold ret, reading_lines. by rewrite !app_nil_r.
  - simpl. unfold bind at 1.
    rewrite (overlay_frame_fits _ _ _ _ _ base) by
      (done || apply (Hfits 0 frame a eq_refl eq_refl)).
    simpl. rewrite alter_insert_eq. simpl.
    rewrite IH; [|simpl in Hlen; lia|].
    + unfold reading_lines. destruct (decide (a ≠ " ")) as [Ha|Ha].
      * rewrite !filter_cons_True by done. rewrite filter_nil. simpl.
        by rewrite <- !app_assoc.
      * rewrite !filter_cons_False by done. rewrite filter_nil. simpl.
        by rewrite app_nil_r, <- !app_assoc.
    + intros k. apply (Hfits (S k)).
Qed.

(** The overlay in closed form. With as many actions as frames, the arrow
    file there and holding an array, and every frame with a non-blank
    action large enough for the arrow at (200, 240), the overlay returns.
    Frame k is then the frame with its action's arrow on it, and stays as it
    was for the blank action; these frames, in order, are the output file,
    at 4 frames a second; the arrow file is read once for each non-blank
    action; nothing else is written. On every such frame each pixel of the
    arrow that is not black is there, whatever was there before. This is
    of a video that has a frame. *)
Theorem overlay_draws_every_arrow_pixel
    video_np save_path actions w base :
  video_np ≠ [] →
  length actions = length video_np →
  images w !! image_path = Some base → rectangular base →
  (∀ k frame action,
     video_np !! k = Some frame → actions !! k = Some action →
     action ≠ " " → fits (spec_arrow action base) frame) →
  add_arrows_to_video video_np save_path actions w
  = (World
       (stdout w
        ++ Text ("Saving modified video with arrows to: " +:+ save_path)
           :: reading_lines actions)
       (images w)
       (<[save_path := Video 4 (zip_with (overlaid base) video_np actions)]>
          (videos w))
       (next_storage w),
     inr (zip_with (overlaid base) video_np actions))
  ∧ ∀ k frame action,
      video_np !! k = Some frame → actions !! k = Some action →
      action ≠ " " →
      shape (overlaid base frame action) = shape frame
      ∧ ∀ i j px,
          pixel_at (spec_arrow action base) i j = Some px →
          np_any_nonzero px = true →
          pixel_at (overlaid base frame action)
            (position.1 + i) (position.2 + j) = Some px.
Proof.
  intros _ Hlen Hbase Hrect Hfits. split.
  - unfold add_arrows_to_video. rewrite decide_False by tauto.
    unfold bind at 1. unfold print at 1. unfold bind at 1.
    unfold get_writer at 1. unfold bind at 1. simpl.
    rewrite (overlay_loop_fits _ _ _ _ _ _ _ _ _ base) by done.
    unfold bind, close, ret. simpl. by rewrite <- app_assoc.
  - intros k frame action Hframe Haction Ha. unfold overlaid.
    rewrite decide_True by done. split; [apply shape_with_arrow|].
    intros i j px Hpx Hnz.
    rewrite pixel_at_with_arrow_fits by (by eapply Hfits).
    by rewrite (arrow_pixel_on_at _ _ _ _ Hpx), Hnz.
Qed.

Lemma overlay_frame_raises_IndexError writer done frame action w w' e base :
  images w !! image_path = Some base →
  overlay_frame writer done (frame, action) w = (w', inl e) →
  e = IndexError.
Proof.
  intros Hbase. unfold overlay_frame. unfold bind at 1.
  destruct (decide (action ≠ " ")) as [Ha|Ha].
  - unfold bind at 1. rewrite create_arrow_image_nonneg by lia.
    rewrite Hbase.
    destruct (draw_arrow _ _ _) as [w1 [e1|f1]] eqn:Hdraw.
    + intros H. injection H as <- <-. by eapply draw_arrow_raises.
    + unfold bind, append_data, ret. simpl. discriminate.
  - unfold ret at 1, bind, append_data, ret. simpl. discriminate.
Qed.

Lemma overlay_frame_does_not_fit
    writer done frame action w base i j px :
  images w !! image_path = Some base → rectangular base →
  action ≠ " " →
  pixel_at (spec_arrow action base) i j = Some px →
  np_any_nonzero px = true →
  pixel_at frame (position.1 + i) (position.2 + j) = None →
  ∃ w', overlay_frame writer done (frame, action) w = (w', inl IndexError).
Proof.
  intros Hbase Hrect Ha Hpx Hnz Hnone. unfold overlay_frame.
  unfold bind at 1. rewrite decide_True by done.
  unfold bind at 1. rewrite create_arrow_image_nonneg by lia.
  rewrite Hbase.
  destruct (draw_arrow_does_not_fit (spec_arrow action base) frame
              (print (Text ("Reading arrow image from: " +:+ image_path))
                 w).1 i j px) as [w' ->]; try done.
  - by apply rectangular_spec_arrow.
  - by exists w'.
Qed.

Lemma overlay_loop_does_not_fit
    writer zs acc w base k frame action i j px :
  images w !! image_path = Some base → rectangular base →
  zs !! k = Some (frame, action) → action ≠ " " →
  pixel_at (spec_arrow action base) i j = Some px →
  np_any_nonzero px = true →
  pixel_at frame (position.1 + i) (position.2 + j) = None →
  ∃ w', for_each zs (overlay_frame writer) acc w = (w', inl IndexError).
Proof.
  intros Hbase Hrect Hk Ha Hpx Hnz Hnone. revert k acc w Hbase Hk.
  induction zs as [|[frame0 action0] zs IH]; intros k acc w Hbase Hk;
    [done|].
  simpl. unfold bind.
  destruct k as [|k].
  - injection Hk as -> ->.
    destruct (overlay_frame_does_not_fit writer acc frame action w base
                i j px) as [w' ->]; try done.
    by exists w'.
  - destruct (overlay_frame writer acc (frame0, action0) w)
      as [w1 [e|acc1]] eqn:Hstep.
    + exists w1. by apply (overlay_frame_raises_IndexError _ _ _ _ _ _ _ base)
        in Hstep as ->.
    + apply overlay_frame_inv in Hstep as (f' & _ & Himg & _).
      apply (IH k); [by rewrite Himg|done].
Qed.

(** A frame too small for its arrow. With as many actions as frames and the
    arrow file there, one frame that has a non-blank action and no place for
    some pixel of the arrow that is not black makes the overlay raise
    IndexError (not the validation error), whatever the other frames are. *)
Theorem overlay_raises_IndexError_on_a_small_frame
    video_np save_path actions w base k frame action i j px :
  length actions = length video_np →
  images w !! image_path = Some base → rectangular base →
  video_np !! k = Some frame → actions !! k = Some action →
  action ≠ " " →
  pixel_at (spec_arrow action base) i j = Some px →
  np_any_nonzero px = true →
  pixel_at frame (position.1 + i) (position.2 + j) = None →
  (add_arrows_to_video video_np save_path actions w).2 = inl IndexError.
Proof.
  intros Hlen Hbase Hrect Hframe Haction Ha Hpx Hnz Hnone.
  unfold add_arrows_to_video. rewrite decide_False by tauto.
  unfold bind at 1. unfold print at 1. unfold bind at 1.
  unfold get_writer at 1. unfold bind at 1. simpl.
  destruct (overlay_loop_does_not_fit save_path (zip video_np actions) []
              (World
                 (stdout w
                  ++ [Text ("Saving modified video with arrows to: "
                            +:+ save_path)])
                 (images w) (<[save_path := Video 4 []]> (videos w))
                 (next_storage w))
              base k frame action i j px) as [w' ->]; try done.
  by apply lookup_zip_Some.
Qed.


Lemma arrow_is_turned_for_its_direction_witness :
  ∃ w' arrow_img,
    create_arrow_image "a" 50 (255, 0, 0)%N square_world = (w', inr arrow_img)
    ∧ pixel_at arrow_img 0 0 = Some (2, 0, 0)%N
    ∧ pixel_at arrow_img 0 1 = Some (4, 0, 0)%N
    ∧ pixel_at arrow_img 1 0 = Some (1, 0, 0)%N
    ∧ pixel_at arrow_img 1 1 = Some (3, 0, 0)%N.
Proof.
  assert (Hrect : rectangular sample_square) by (repeat constructor).
  assert (Hrun : ∃ w' arrow_img,
    create_arrow_image "a" 50 (255, 0, 0)%N square_world
    = (w', inr arrow_img)) by (eexists _, _; vm_compute; reflexivity).
  destruct Hrun as (w' & arrow_img & Hrun). exists w', arrow_img.
  destruct (arrow_is_turned_for_its_direction "a" 50 (255, 0, 0)%N
              square_world w' arrow_img sample_square Hrun eq_refl Hrect)
    as (_ & _ & Ha & _).
  split; [exact Hrun|].
  split_and!; rewrite (Ha eq_refl) by (vm_compute; lia); reflexivity.
Defined.

Lemma overlay_draws_every_arrow_pixel_witness :
  (add_arrows_to_video sample_video "out.mp4" ["d"; " "] arrow_world).2
  = inr (zip_with (overlaid sample_arrow) sample_video ["d"; " "])
  ∧ pixel_at
      (overlaid sample_arrow (replicate 202 (replicate 242 (0, 0, 0)%N)) "d")
      200 240
    = Some (9, 0, 0)%N.
Proof.
  assert (Hrect : rectangular sample_arrow) by (repeat constructor).
  assert (Hfits : ∀ k frame action,
    sample_video !! k = Some frame → ["d"; " "] !! k = Some action →
    action ≠ " " → fits (spec_arrow action sample_arrow) frame).
  { intros [|[|k]] frame action Hframe Haction Ha; try discriminate.
    - injection Hframe as <-. injection Haction as <-.
      intros i j px Hpx Hnz.
      destruct i as [|[|i]], j as [|j]; vm_compute in Hpx;
        try discriminate; injection Hpx as <-.
      + vm_compute. by eexists.
      + vm_compute in Hnz. discriminate.
    - injection Haction as <-. by destruct Ha. }
  assert (Hne : sample_video ≠ []).
  { intros H. apply (f_equal length) in H. vm_compute in H. discriminate. }
  destruct (overlay_draws_every_arrow_pixel sample_video "out.mp4"
              ["d"; " "] arrow_world sample_arrow Hne eq_refl eq_refl Hrect
              Hfits) as [Hrun Hpix].
  split; [by rewrite Hrun|].
  destruct (Hpix 0 (replicate 202 (replicate 242 (0, 0, 0)%N)) "d"
              eq_refl eq_refl) as [_ Hpx]; [discriminate|].
  exact (Hpx 0 0 (9, 0, 0)%N eq_refl eq_refl).
Defined.

Lemma overlay_raises_IndexError_on_a_small_frame_witness :
  (add_arrows_to_video [small_frame] "out.mp4" ["w"] arrow_world).2
  = inl IndexError.
Proof.
  apply (overlay_raises_IndexError_on_a_small_frame [small_frame] "out.mp4"
           ["w"] arrow_world sample_arrow 0 small_frame "w" 0 0
           (9, 0, 0)%N);
    try reflexivity; try discriminate.
  repeat constructor.
Defined.

